(** * Player management of the Alda REPL server

    A shallow embedding of [client/repl/player_management.go]: the slot
    [server.player] with its accessors, the helpers [emitter], [withEmitter]
    and [findAvailablePlayer], one iteration of the [managePlayers] loop, and
    [shutdownPlayer].

    Go values are rendered as follows.
    - An [error] is its [Error()] text; a value of Go type [error] is an
      [option error], [None] being [nil].
    - A [time.Time] is a number of nanoseconds since the Unix epoch and a
      [time.Duration] a number of nanoseconds, both in [Z]; [Sub] saturates
      at the bounds of a 64-bit duration as [time.Time.Sub] does.
    - A function returning [(T, error)] returns a pair: Go gives both
      components on every path and the callers here read both.
    - A Go [int] that is only stored and compared with 0 (a port) is a [Z].
    - Calls that leave the process (registry queries, messages to a player,
      log lines) append an [Event] to a trace, so that "was this call made"
      is a statement about a list.

    [managePlayers] runs in one goroutine and the callers of [withEmitter]
    and [shutdownPlayer] in others.  An iteration of the loop is modelled
    as running its four steps on the slot without interference; a wait in
    [withEmitter] sees what the loop stores into the slot between two of
    its attempts. *)

From Stdlib Require Import ZArith String List Bool Lia.
Import ListNotations.
Open Scope string_scope.
Open Scope list_scope.
Open Scope Z_scope.

(** ** Values shared with the other packages *)

Definition error : Type := string.

(** [strings.HasPrefix s prefix] *)
Definition HasPrefix (s prefix : string) : bool := String.prefix prefix s.

Definition Second : Z := 1000000000.
Definition Millisecond : Z := 1000000.

Definition maxDuration : Z := 2 ^ 63 - 1.
Definition minDuration : Z := - 2 ^ 63.

(** [t.Sub(u)]: the duration [t - u], clamped to what a Duration can hold. *)
Definition Sub (t u : Z) : Z :=
  let d := t - u in
  if d >? maxDuration then maxDuration
  else if d <? minDuration then minDuration
  else d.

(** [time.Unix(0, 0)] *)
Definition Unix00 : Z := 0.

Module emitter.
(** The handle that sends OSC messages to the player listening on [Port]. *)
Record OSCEmitter : Type := { Port : Z }.
End emitter.

(** ** Constants of the file (lines 14-18) *)

Definition findPlayerTimeout : Z := 20 * Second.
Definition playerPoolFillInterval : Z := 15 * Second.
Definition pingTimeout : Z := 5 * Second.
Definition pingInterval : Z := 1 * Second.
Definition failedPingThreshold : nat := 3.

Inductive Level : Type := DebugLevel | InfoLevel | WarnLevel.

(** One pacing of the waits, for the concrete runs at the end: an attempt
    every 100 ms, and a wait that gives up hands back the error of its last
    attempt. *)
Definition every100ms (d : Z) : nat := Z.to_nat (d / (100 * Millisecond)).
Definition lastError (e : error) : error := e.

Section PlayerManagement.

(** How [util.Await] paces its attempts is decided in package [util]:
    [retries d] is the number of further attempts that start within the
    duration [d] after a first failed one, and [timeoutError e] is the
    error a wait ends with when its last attempt failed with [e]. *)
Variable retries : Z -> nat.
Variable timeoutError : error -> error.

(** The fields of [system.PlayerState] besides [ID] and [Port], which this
    file never reads, and their zero value. *)
Context {Fields : Type}.
Variable zeroFields : Fields.

(** Modelled from the spec: the Worker Descriptor, [system.PlayerState],
    which is declared in package [system]: "a stable identifier (string,
    opaque, assigned by the registry) and a network endpoint (port
    number)". *)
Record PlayerState : Type := {
  ID : string;
  Port : Z;
  Other : Fields
}.

(** [system.PlayerState{}]: every field at its zero value. *)
Definition zeroPlayerState : PlayerState :=
  {| ID := ""; Port := 0; Other := zeroFields |}.

(** The one field of [Server] that this file touches. *)
Record Server : Type := { player : PlayerState }.

(** [server.player = p] *)
Definition setPlayer (server : Server) (p : PlayerState) : Server :=
  {| player := p |}.

Inductive Event : Type :=
| Call_FillPlayerPool
| Call_FindPlayerByID (id : string)
| Call_FindAvailablePlayer
| Call_EmitPingMessage (port : Z)
| Call_EmitShutdownMessage (port : Z) (arg : Z)
| Log (lvl : Level) (err : option error) (who : option PlayerState)
      (msg : string).

(** ** Accessors of the slot (lines 41-47 and 86-101) *)

Definition hasPlayer (server : Server) : bool :=
  negb (Port (player server) =? 0).

Definition unsetPlayer (server : Server) : Server :=
  setPlayer server zeroPlayerState.

Definition no_player_msg : error := "no player process is available".

Definition emitter (server : Server)
  : emitter.OSCEmitter * option error :=
  if negb (hasPlayer server)
  then ({| emitter.Port := 0 |}, Some no_player_msg)
  else ({| emitter.Port := Port (player server) |}, None).

(** ** Bounded wait *)

(** Modelled from the spec: [util.Await], the Bounded-Wait Executor of
    package [util]: "await(operation, timeout) -> success | TimeoutError |
    operation's own error", with which [withChannel] "waits (bounded by the
    discovery timeout) until a channel can be obtained" and tolerates "the
    case where a worker becomes available between the first unsuccessful
    attempt and a later retry within the timeout window".  The test runs
    once; while it fails and the window allows, it runs again.  [test k] is
    the [k]-th run of the closure, acting on what the closure captured
    ([St]). *)
Fixpoint awaitLoop {St : Type} (test : nat -> St -> St * option error)
    (k left : nat) (s : St) : St * option error :=
  match test k s with
  | (s', None) => (s', None)
  | (s', Some e) =>
      match left with
      | O => (s', Some (timeoutError e))
      | S left' => awaitLoop test (S k) left' s'
      end
  end.

Definition Await {St : Type} (test : nat -> St -> St * option error)
    (timeoutDuration : Z) (s : St) : St * option error :=
  awaitLoop test 0 (retries timeoutDuration) s.

(** ** What one iteration of the loop is told by the outside *)

Record World : Type := {
  (** [time.Now()] *)
  Now : Z;
  (** [system.FillPlayerPool()] *)
  FillPlayerPool : option error;
  (** [system.FindPlayerByID(id)] *)
  FindPlayerByID : string -> PlayerState * option error;
  (** [system.FindAvailablePlayer()], at its [k]-th call of the wait *)
  FindAvailablePlayer : nat -> PlayerState * option error;
  (** [emitter.EmitPingMessage()] to a port, at its [k]-th call of the wait *)
  EmitPingMessage : Z -> nat -> option error
}.

(** ** findAvailablePlayer (lines 20-39) *)

(** The closure of lines 24-32; it captures [player] and, here, the trace. *)
Definition findAvailablePlayer_test (w : World) (k : nat)
    (c : PlayerState * list Event) : PlayerState * list Event * option error :=
  let '(player_, tr) := c in
  let '(availablePlayer, err) := FindAvailablePlayer w k in
  match err with
  | Some e => ((player_, tr ++ [Call_FindAvailablePlayer]), Some e)
  | None => ((availablePlayer, tr ++ [Call_FindAvailablePlayer]), None)
  end.

Definition findAvailablePlayer (w : World)
  : PlayerState * option error * list Event :=
  let '((player_, tr), err) :=
    Await (findAvailablePlayer_test w) findPlayerTimeout
      (zeroPlayerState, []) in
  match err with
  | Some e => (zeroPlayerState, Some e, tr)
  | None => (player_, None, tr)
  end.

(** ** withEmitter (lines 55-76) *)

(** Other goroutines write [server.player] while a caller waits:
    [writes j] is what was stored into the slot between attempt [j] and
    attempt [j + 1] of the wait, if anything. *)
Definition arrive (writes : nat -> option PlayerState) (k : nat)
    (server : Server) : Server :=
  match k with
  | O => server
  | S j =>
      match writes j with
      | Some p => setPlayer server p
      | None => server
      end
  end.

(** The closure of lines 61-69: it reads the shared [server] and captures
    [emitter]; the state threaded through the wait is the pair of them. *)
Definition withEmitter_test (writes : nat -> option PlayerState) (k : nat)
    (c : Server * emitter.OSCEmitter)
  : Server * emitter.OSCEmitter * option error :=
  let '(server0, emitter_) := c in
  let server1 := arrive writes k server0 in
  let '(oe, err) := emitter server1 in
  match err with
  | Some e => ((server1, emitter_), Some e)
  | None => ((server1, oe), None)
  end.

(** [execute] acts on an outside of type [W]. *)
Definition withEmitter {W : Type} (server : Server)
    (writes : nat -> option PlayerState)
    (execute : emitter.OSCEmitter -> W -> W * option error) (w : W)
  : Server * W * option error :=
  let '((server', emitter_), err) :=
    Await (withEmitter_test writes) findPlayerTimeout
      (server, {| emitter.Port := 0 |}) in
  match err with
  | Some e => (server', w, Some e)
  | None => let '(w', r) := execute emitter_ w in (server', w', r)
  end.

(** ** One iteration of managePlayers (lines 120-189) *)

Record Loop : Type := {
  server : Server;
  playerPoolLastFilled : Z;
  lastPing : Z
}.

(** Lines 123-132. *)
Definition fillStep (w : World) (now lastFilled : Z) : Z * list Event :=
  if Sub now lastFilled >? playerPoolFillInterval then
    (now,
     Call_FillPlayerPool ::
     match FillPlayerPool w with
     | Some err => [Log WarnLevel (Some err) None "Failed to fill player pool."]
     | None => [Log DebugLevel None None "Filled player pool."]
     end)
  else (lastFilled, []).

(** Lines 134-152. *)
Definition refreshStep (w : World) (srv : Server) : Server * list Event :=
  if hasPlayer srv then
    let '(updatedState, err) := FindPlayerByID w (ID (player srv)) in
    let call := Call_FindPlayerByID (ID (player srv)) in
    match err with
    | None => (setPlayer srv updatedState, [call])
    | Some e =>
        if HasPrefix e "player not found" then
          (unsetPlayer srv,
           [call; Log WarnLevel None (Some (player srv))
                      "Player process is offline."])
        else
          (srv,
           [call; Log WarnLevel (Some e) None
                      "Failed to update player state information."])
    end
  else (srv, []).

(** Lines 154-162. *)
Definition acquireStep (w : World) (srv : Server) : Server * list Event :=
  if negb (hasPlayer srv) then
    let '(player_, err, tr) := findAvailablePlayer w in
    match err with
    | Some e =>
        (srv,
         tr ++ [Log WarnLevel (Some e) None "No player processes available."])
    | None =>
        (setPlayer srv player_,
         tr ++ [Log InfoLevel None (Some player_) "Found player process."])
    end
  else (srv, []).

(** The wait of lines 169-172: each attempt sends one ping. *)
Definition awaitPing (w : World) (em : emitter.OSCEmitter)
  : list Event * option error :=
  Await
    (fun (k : nat) (tr : list Event) =>
       (tr ++ [Call_EmitPingMessage (emitter.Port em)],
        EmitPingMessage w (emitter.Port em) k))
    pingTimeout [].

(** Lines 164-186. *)
Definition pingStep (w : World) (now : Z) (srv : Server) (last : Z)
  : Server * Z * list Event :=
  if hasPlayer srv && (Sub now last >? pingInterval) then
    let '(emitter_, _) := emitter srv in
    let '(tr, err) := awaitPing w emitter_ in
    match err with
    | Some e =>
        (unsetPlayer srv, now,
         tr ++ [Log WarnLevel (Some e) (Some (player srv))
                    "Player process unreachable."])
    | None =>
        (srv, now,
         tr ++ [Log DebugLevel None (Some (player srv))
                    "Sent ping to player process."])
    end
  else (srv, last, []).

Definition tick (w : World) (l : Loop) : Loop * list Event :=
  let now := Now w in
  let '(filled, tr1) := fillStep w now (playerPoolLastFilled l) in
  let '(srv2, tr2) := refreshStep w (server l) in
  let '(srv3, tr3) := acquireStep w srv2 in
  let '(srv4, pinged, tr4) := pingStep w now srv3 (lastPing l) in
  ({| server := srv4; playerPoolLastFilled := filled; lastPing := pinged |},
   tr1 ++ tr2 ++ tr3 ++ tr4).

(** The loop never returns; [ticks ws l] is where it stands, and what it
    has done, after one iteration per element of [ws]. *)
Fixpoint ticks (ws : list World) (l : Loop) : Loop * list Event :=
  match ws with
  | [] => (l, [])
  | w :: ws' =>
      let '(l1, tr1) := tick w l in
      let '(l2, tr2) := ticks ws' l1 in
      (l2, tr1 ++ tr2)
  end.

(** Lines 117-118: both timestamps start at the epoch. *)
Definition managePlayers (srv : Server) (ws : list World)
  : Loop * list Event :=
  ticks ws {| server := srv;
              playerPoolLastFilled := Unix00;
              lastPing := Unix00 |}.

(** ** shutdownPlayer (lines 192-212) *)

(** [send em n] is what [em.EmitShutdownMessage(n)] returns. *)
Definition shutdownPlayer (srv : Server)
    (writes : nat -> option PlayerState)
    (send : emitter.OSCEmitter -> Z -> option error)
  : Server * list Event * option error :=
  let '(srv', tr, err) :=
    withEmitter srv writes
      (fun (emitter_ : emitter.OSCEmitter) (tr : list Event) =>
         (tr ++ [Call_EmitShutdownMessage (emitter.Port emitter_) 0],
          send emitter_ 0))
      [] in
  match err with
  | Some e => (srv', tr, Some e)
  | None => (unsetPlayer srv', tr, None)
  end.

(** ** Vocabulary of the statements *)

(** The slot as attempt [k] of a wait finds it, [srv] being the slot when
    the wait starts. *)
Fixpoint slotAt (writes : nat -> option PlayerState) (k : nat)
    (srv : Server) : Server :=
  match k with
  | O => srv
  | S j => arrive writes (S j) (slotAt writes j srv)
  end.

(** The slot that attempt [k] starts from. *)
Definition slotBefore (writes : nat -> option PlayerState) (k : nat)
    (srv : Server) : Server :=
  match k with
  | O => srv
  | S j => slotAt writes j srv
  end.

(** What a call that waits for an emitter hands back: the slot on return,
    what it did outside, and the error it returns. *)
Definition slotOnReturn {A B : Type} (r : Server * A * B) : Server :=
  fst (fst r).

Definition outside {A B : Type} (r : Server * A * B) : A := snd (fst r).

Definition returned {A B : Type} (r : Server * A * B) : B := snd r.

(** The slot between the steps of one iteration. *)
Definition afterRefresh (w : World) (l : Loop) : Server :=
  fst (refreshStep w (server l)).

Definition afterAcquire (w : World) (l : Loop) : Server :=
  fst (acquireStep w (afterRefresh w l)).

Definition isFillCall (ev : Event) : bool :=
  match ev with Call_FillPlayerPool => true | _ => false end.

Definition isPingCall (ev : Event) : bool :=
  match ev with Call_EmitPingMessage _ => true | _ => false end.

(** The warning of lines 173-176, one per wait for a ping that failed. *)
Definition isPingFailure (ev : Event) : bool :=
  match ev with
  | Log WarnLevel _ _ msg => String.eqb msg "Player process unreachable."
  | _ => false
  end.

Definition failedPings (tr : list Event) : nat :=
  length (filter isPingFailure tr).

Definition isFindByIDCall (ev : Event) : bool :=
  match ev with Call_FindPlayerByID _ => true | _ => false end.

Definition isDiscoveryCall (ev : Event) : bool :=
  match ev with Call_FindAvailablePlayer => true | _ => false end.

(** A ping addressed to port 0, the port of the empty slot. *)
Definition isPingToPortZero (ev : Event) : bool :=
  match ev with Call_EmitPingMessage port => port =? 0 | _ => false end.

(** ** Data of the concrete runs *)

Definition ex_p1 : PlayerState :=
  {| ID := "p1"; Port := 27713; Other := zeroFields |}.

Definition ex_p2 : PlayerState :=
  {| ID := "p2"; Port := 27714; Other := zeroFields |}.

Definition ex_empty : Server := {| player := zeroPlayerState |}.

Definition ex_bound : Server := {| player := ex_p1 |}.

(** A world at time [now]: the pool fill answers [fill]; the registry
    refreshes "p2" as [ex_p2] and any other id on port 27713, unless [byID]
    is an error; discovery finds
    [ex_p2] at once when [avail], and nobody otherwise; every ping succeeds
    when [pingOK] and is refused otherwise. *)
Definition ex_world (now : Z) (fill byID : option error)
    (avail pingOK : bool) : World :=
  {| Now := now;
     FillPlayerPool := fill;
     FindPlayerByID := fun id =>
       match byID with
       | None =>
           if String.eqb id "p2" then (ex_p2, None)
           else ({| ID := id; Port := 27713; Other := zeroFields |}, None)
       | Some e => (zeroPlayerState, Some e)
       end;
     FindAvailablePlayer := fun _ =>
       if avail then (ex_p2, None)
       else (zeroPlayerState, Some "no players available");
     EmitPingMessage := fun _ _ =>
       if pingOK then None else Some "connection refused" |}.

(** ** The accessors *)

Lemma hasPlayer_true_iff (srv : Server) :
  hasPlayer srv = true <-> Port (player srv) <> 0.
Proof.
  unfold hasPlayer. rewrite negb_true_iff, Z.eqb_neq. tauto.
Qed.

Lemma hasPlayer_false_iff (srv : Server) :
  hasPlayer srv = false <-> Port (player srv) = 0.
Proof.
  unfold hasPlayer. rewrite negb_false_iff, Z.eqb_eq. tauto.
Qed.

Lemma hasPlayer_unsetPlayer (srv : Server) :
  hasPlayer (unsetPlayer srv) = false.
Proof. reflexivity. Qed.

(** C7. [hasPlayer] is true exactly when the stored descriptor's [Port] is
    not zero: the zero value is empty, a descriptor with [Port] 0 is empty
    whatever its other fields, and [unsetPlayer] leaves the slot empty. *)
Theorem hasPlayer_iff_port_nonzero :
  (forall srv : Server, hasPlayer srv = true <-> Port (player srv) <> 0) /\
  hasPlayer {| player := zeroPlayerState |} = false /\
  (forall (id : string) (other : Fields),
      hasPlayer {| player := {| ID := id; Port := 0; Other := other |} |}
      = false) /\
  (forall srv : Server, hasPlayer (unsetPlayer srv) = false).
Proof.
  repeat split; try reflexivity.
  - apply hasPlayer_true_iff.
  - apply hasPlayer_true_iff.
Qed.

Lemma emitter_bound (srv : Server) :
  hasPlayer srv = true ->
  emitter srv = ({| emitter.Port := Port (player srv) |}, None).
Proof. intros H. unfold emitter. rewrite H. reflexivity. Qed.

Lemma emitter_empty (srv : Server) :
  hasPlayer srv = false ->
  emitter srv = ({| emitter.Port := 0 |}, Some no_player_msg).
Proof. intros H. unfold emitter. rewrite H. reflexivity. Qed.

(** C8. [emitter] returns an error exactly when [hasPlayer] is false, the
    error reads "no player process is available"; when [hasPlayer] is true
    it returns no error and an emitter on the bound descriptor's port; so
    under the guard of the health check the discarded error is nil. *)
Theorem emitter_error_iff_no_player (srv : Server) :
  (hasPlayer srv = false <-> exists e, snd (emitter srv) = Some e) /\
  (forall e, snd (emitter srv) = Some e ->
             e = "no player process is available") /\
  (hasPlayer srv = true <->
   emitter srv = ({| emitter.Port := Port (player srv) |}, None)) /\
  (forall now last : Z,
      hasPlayer srv && (Sub now last >? pingInterval) = true ->
      snd (emitter srv) = None).
Proof.
  destruct (hasPlayer srv) eqn:H.
  - rewrite (emitter_bound _ H). cbn. repeat split; try congruence.
    intros [e He]. discriminate.
  - rewrite (emitter_empty _ H). cbn. repeat split; try congruence.
    + intros _. exists no_player_msg. reflexivity.
    + intros e He. injection He as <-. reflexivity.
Qed.

(** ** The refresh step *)

(** C2. With a worker bound, the answer of [FindPlayerByID] for the bound
    id settles the slot three ways: no error, the slot is the refreshed
    descriptor; an error starting with "player not found", the slot is
    cleared; any other error, the slot is as it was. *)
Theorem refresh_three_way (w : World) (srv : Server) :
  hasPlayer srv = true ->
  (forall updated,
      FindPlayerByID w (ID (player srv)) = (updated, None) ->
      player (fst (refreshStep w srv)) = updated) /\
  (forall updated e,
      FindPlayerByID w (ID (player srv)) = (updated, Some e) ->
      HasPrefix e "player not found" = true ->
      player (fst (refreshStep w srv)) = zeroPlayerState /\
      hasPlayer (fst (refreshStep w srv)) = false) /\
  (forall updated e,
      FindPlayerByID w (ID (player srv)) = (updated, Some e) ->
      HasPrefix e "player not found" = false ->
      fst (refreshStep w srv) = srv).
Proof.
  intros Hbound. unfold refreshStep. rewrite Hbound.
  repeat split; intros; rewrite H; try rewrite H0; reflexivity.
Qed.

(** ** Waiting for an emitter *)

Lemma arrive_slotBefore writes k srv :
  arrive writes k (slotBefore writes k srv) = slotAt writes k srv.
Proof. destruct k; reflexivity. Qed.

Lemma withEmitter_test_bound writes k srv em :
  hasPlayer (slotAt writes k srv) = true ->
  withEmitter_test writes k (slotBefore writes k srv, em)
  = ((slotAt writes k srv,
      {| emitter.Port := Port (player (slotAt writes k srv)) |}), None).
Proof.
  intros H. unfold withEmitter_test.
  rewrite arrive_slotBefore, (emitter_bound _ H). reflexivity.
Qed.

Lemma withEmitter_test_empty writes k srv em :
  hasPlayer (slotAt writes k srv) = false ->
  withEmitter_test writes k (slotBefore writes k srv, em)
  = ((slotAt writes k srv, em), Some no_player_msg).
Proof.
  intros H. unfold withEmitter_test.
  rewrite arrive_slotBefore, (emitter_empty _ H). reflexivity.
Qed.

Lemma slotAt_no_writes k srv : slotAt (fun _ => None) k srv = srv.
Proof. induction k as [|k IH]; cbn; [reflexivity | exact IH]. Qed.

(** A wait that meets a worker at attempt [k0], and none before, ends there. *)
Lemma awaitLoop_meets writes srv em k0 :
  hasPlayer (slotAt writes k0 srv) = true ->
  forall left k,
    (k <= k0 <= k + left)%nat ->
    (forall j, (k <= j < k0)%nat -> hasPlayer (slotAt writes j srv) = false) ->
    awaitLoop (withEmitter_test writes) k left (slotBefore writes k srv, em)
    = ((slotAt writes k0 srv,
        {| emitter.Port := Port (player (slotAt writes k0 srv)) |}), None).
Proof.
  intros Hk0. induction left as [|left IH]; intros k Hk Hnone.
  - assert (k = k0) by lia. subst k. cbn [awaitLoop].
    rewrite (withEmitter_test_bound _ _ _ _ Hk0). reflexivity.
  - cbn [awaitLoop]. destruct (Nat.eq_dec k k0) as [->|Hne].
    + rewrite (withEmitter_test_bound _ _ _ _ Hk0). reflexivity.
    + rewrite withEmitter_test_empty by (apply Hnone; lia).
      apply (IH (S k)); [lia|]. intros j Hj. apply Hnone. lia.
Qed.

(** A wait that meets no worker runs every attempt and gives up. *)
Lemma awaitLoop_gives_up writes srv em :
  forall left k,
    (forall j, (k <= j <= k + left)%nat ->
               hasPlayer (slotAt writes j srv) = false) ->
    awaitLoop (withEmitter_test writes) k left (slotBefore writes k srv, em)
    = ((slotAt writes (k + left) srv, em),
       Some (timeoutError no_player_msg)).
Proof.
  induction left as [|left IH]; intros k Hnone; cbn [awaitLoop].
  - rewrite withEmitter_test_empty by (apply Hnone; lia).
    rewrite Nat.add_0_r. reflexivity.
  - rewrite withEmitter_test_empty by (apply Hnone; lia).
    change (slotAt writes k srv) with (slotBefore writes (S k) srv).
    rewrite (IH (S k)).
    + replace (S k + left)%nat with (k + S left)%nat by lia. reflexivity.
    + intros j Hj. apply Hnone. lia.
Qed.

(** Among the attempts up to [n], the first that meets a worker. *)
Lemma first_bound_attempt writes srv :
  forall n k,
    (k <= n)%nat -> hasPlayer (slotAt writes k srv) = true ->
    exists k0, (k0 <= k)%nat /\
      hasPlayer (slotAt writes k0 srv) = true /\
      (forall j, (j < k0)%nat -> hasPlayer (slotAt writes j srv) = false).
Proof.
  intros n k _. induction k as [k IH] using lt_wf_ind. intros Hk.
  destruct (existsb (fun j => hasPlayer (slotAt writes j srv)) (seq 0 k))
    eqn:E.
  - apply existsb_exists in E. destruct E as (j & Hin & Hj).
    apply in_seq in Hin. destruct (IH j ltac:(lia) Hj) as (k0 & ? & ? & ?).
    exists k0. repeat split; auto. lia.
  - exists k. repeat split; auto. intros j Hj.
    destruct (hasPlayer (slotAt writes j srv)) eqn:Ej; auto.
    rewrite <- E. symmetry. apply existsb_exists. exists j. split; auto.
    apply in_seq. lia.
Qed.

Lemma withEmitter_meets {W : Type} srv writes
    (execute : emitter.OSCEmitter -> W -> W * option error) (w : W) k0 :
  (k0 <= retries findPlayerTimeout)%nat ->
  hasPlayer (slotAt writes k0 srv) = true ->
  (forall j, (j < k0)%nat -> hasPlayer (slotAt writes j srv) = false) ->
  let em := {| emitter.Port := Port (player (slotAt writes k0 srv)) |} in
  withEmitter srv writes execute w
  = (slotAt writes k0 srv, fst (execute em w), snd (execute em w)).
Proof.
  intros Hle Hk0 Hnone em. unfold withEmitter, Await.
  change srv with (slotBefore writes 0 srv) at 1.
  rewrite (awaitLoop_meets writes srv _ k0 Hk0); [| lia |].
  - destruct (execute _ w); reflexivity.
  - intros j Hj. apply Hnone. lia.
Qed.

Lemma withEmitter_gives_up {W : Type} srv writes
    (execute : emitter.OSCEmitter -> W -> W * option error) (w : W) :
  (forall j, (j <= retries findPlayerTimeout)%nat ->
             hasPlayer (slotAt writes j srv) = false) ->
  withEmitter srv writes execute w
  = (slotAt writes (retries findPlayerTimeout) srv, w,
     Some (timeoutError no_player_msg)).
Proof.
  intros Hnone. unfold withEmitter, Await.
  change srv with (slotBefore writes 0 srv) at 1.
  rewrite awaitLoop_gives_up; [reflexivity|].
  intros j Hj. apply Hnone. lia.
Qed.

(** C5. [withEmitter] retries for the discovery timeout: when some attempt
    of the window finds a worker in the slot, be it bound only after the
    call, [execute] runs with an emitter on the port of the worker the first
    such attempt found and its result is returned; when the slot is empty at
    every attempt, the unavailability error comes back and [execute] has
    not run. *)
Theorem withEmitter_waits_for_worker {W : Type} (srv : Server)
    (writes : nat -> option PlayerState)
    (execute : emitter.OSCEmitter -> W -> W * option error) (w : W) :
  ((exists k, (k <= retries findPlayerTimeout)%nat /\
              hasPlayer (slotAt writes k srv) = true) ->
   exists k0, (k0 <= retries findPlayerTimeout)%nat /\
     hasPlayer (slotAt writes k0 srv) = true /\
     (forall j, (j < k0)%nat -> hasPlayer (slotAt writes j srv) = false) /\
     let em := {| emitter.Port := Port (player (slotAt writes k0 srv)) |} in
     outside (withEmitter srv writes execute w) = fst (execute em w) /\
     returned (withEmitter srv writes execute w) = snd (execute em w) /\
     slotOnReturn (withEmitter srv writes execute w) = slotAt writes k0 srv)
  /\
  ((forall k, (k <= retries findPlayerTimeout)%nat ->
              hasPlayer (slotAt writes k srv) = false) ->
   outside (withEmitter srv writes execute w) = w /\
   returned (withEmitter srv writes execute w)
   = Some (timeoutError "no player process is available") /\
   hasPlayer (slotOnReturn (withEmitter srv writes execute w)) = false).
Proof.
  split.
  - intros (k & Hk & Hb).
    destruct (first_bound_attempt writes srv _ k Hk Hb) as (k0 & Hle & H0 & Hn).
    exists k0.
    rewrite (withEmitter_meets srv writes execute w k0) by (auto; lia).
    repeat split; auto. lia.
  - intros Hnone. rewrite withEmitter_gives_up by assumption.
    repeat split. apply Hnone. lia.
Qed.

(** ** shutdownPlayer *)

Lemma shutdownPlayer_meets srv writes send k0 :
  (k0 <= retries findPlayerTimeout)%nat ->
  hasPlayer (slotAt writes k0 srv) = true ->
  (forall j, (j < k0)%nat -> hasPlayer (slotAt writes j srv) = false) ->
  shutdownPlayer srv writes send
  = match send {| emitter.Port := Port (player (slotAt writes k0 srv)) |} 0
    with
    | Some e =>
        (slotAt writes k0 srv,
         [Call_EmitShutdownMessage (Port (player (slotAt writes k0 srv))) 0],
         Some e)
    | None =>
        (unsetPlayer (slotAt writes k0 srv),
         [Call_EmitShutdownMessage (Port (player (slotAt writes k0 srv))) 0],
         None)
    end.
Proof.
  intros Hle Hb Hn. unfold shutdownPlayer.
  rewrite (withEmitter_meets srv writes _ [] k0 Hle Hb Hn). cbn.
  destruct (send _ 0); reflexivity.
Qed.

Lemma shutdownPlayer_gives_up srv writes send :
  (forall j, (j <= retries findPlayerTimeout)%nat ->
             hasPlayer (slotAt writes j srv) = false) ->
  shutdownPlayer srv writes send
  = (slotAt writes (retries findPlayerTimeout) srv, [],
     Some (timeoutError no_player_msg)).
Proof.
  intros Hn. unfold shutdownPlayer.
  rewrite withEmitter_gives_up by assumption. reflexivity.
Qed.

(** Either some attempt of the window meets a worker, or none does. *)
Lemma window_cases writes srv n :
  (exists k0, (k0 <= n)%nat /\
     hasPlayer (slotAt writes k0 srv) = true /\
     (forall j, (j < k0)%nat -> hasPlayer (slotAt writes j srv) = false))
  \/ (forall j, (j <= n)%nat -> hasPlayer (slotAt writes j srv) = false).
Proof.
  destruct (existsb (fun j => hasPlayer (slotAt writes j srv)) (seq 0 (S n)))
    eqn:E.
  - left. apply existsb_exists in E. destruct E as (k & Hin & Hk).
    apply in_seq in Hin.
    destruct (first_bound_attempt writes srv n k ltac:(lia) Hk)
      as (k0 & ? & ? & ?).
    exists k0. repeat split; auto. lia.
  - right. intros j Hj.
    destruct (hasPlayer (slotAt writes j srv)) eqn:Ej; auto.
    rewrite <- E. symmetry. apply existsb_exists. exists j. split; auto.
    apply in_seq. lia.
Qed.

(** C3, as amended. When [shutdownPlayer] obtains an emitter within the
    discovery timeout it sends the shutdown message; it clears the slot when
    the send reported success, and when the send reported an error it
    returns that error with the slot as it found it. *)
Theorem shutdownPlayer_clears_after_successful_send (srv : Server)
    (writes : nat -> option PlayerState)
    (send : emitter.OSCEmitter -> Z -> option error) (k0 : nat) :
  (k0 <= retries findPlayerTimeout)%nat ->
  hasPlayer (slotAt writes k0 srv) = true ->
  (forall j, (j < k0)%nat -> hasPlayer (slotAt writes j srv) = false) ->
  let em := {| emitter.Port := Port (player (slotAt writes k0 srv)) |} in
  outside (shutdownPlayer srv writes send)
  = [Call_EmitShutdownMessage (emitter.Port em) 0] /\
  (send em 0 = None ->
   returned (shutdownPlayer srv writes send) = None /\
   player (slotOnReturn (shutdownPlayer srv writes send)) = zeroPlayerState /\
   hasPlayer (slotOnReturn (shutdownPlayer srv writes send)) = false) /\
  (forall e, send em 0 = Some e ->
   returned (shutdownPlayer srv writes send) = Some e /\
   slotOnReturn (shutdownPlayer srv writes send) = slotAt writes k0 srv).
Proof.
  intros Hle Hb Hn em.
  rewrite (shutdownPlayer_meets srv writes send k0 Hle Hb Hn).
  fold em. destruct (send em 0) as [e|]; cbn; repeat split; try congruence.
Qed.

(** C4. When [shutdownPlayer] returns success the slot is empty on return;
    and when it fails because no attempt of the discovery window found a
    worker, it returns the unavailability error, has sent nothing, and the
    slot is empty on return. *)
Theorem shutdownPlayer_leaves_no_player (srv : Server)
    (writes : nat -> option PlayerState)
    (send : emitter.OSCEmitter -> Z -> option error) :
  (returned (shutdownPlayer srv writes send) = None ->
   hasPlayer (slotOnReturn (shutdownPlayer srv writes send)) = false) /\
  ((forall k, (k <= retries findPlayerTimeout)%nat ->
              hasPlayer (slotAt writes k srv) = false) ->
   returned (shutdownPlayer srv writes send)
   = Some (timeoutError "no player process is available") /\
   outside (shutdownPlayer srv writes send) = [] /\
   hasPlayer (slotOnReturn (shutdownPlayer srv writes send)) = false).
Proof.
  split.
  - unfold shutdownPlayer.
    destruct (withEmitter srv writes _ []) as [[srv' tr] [e|]]; cbn.
    + discriminate.
    + reflexivity.
  - intros Hn. rewrite shutdownPlayer_gives_up by assumption.
    unfold returned, outside, slotOnReturn. cbn [fst snd].
    repeat split. apply Hn. apply Nat.le_refl.
Qed.

(** C10. With a worker bound, a shutdown message whose send reports an
    error makes [shutdownPlayer] return that error with the slot untouched,
    the worker still bound; and whenever [shutdownPlayer] returns an error
    the slot on return is one the wait saw, not one it cleared, while a
    success returns the slot cleared. *)
Theorem shutdownPlayer_send_error_keeps_player (srv : Server)
    (writes : nat -> option PlayerState)
    (send : emitter.OSCEmitter -> Z -> option error) :
  (forall e,
      hasPlayer srv = true ->
      send {| emitter.Port := Port (player srv) |} 0 = Some e ->
      shutdownPlayer srv writes send
      = (srv, [Call_EmitShutdownMessage (Port (player srv)) 0], Some e) /\
      hasPlayer (slotOnReturn (shutdownPlayer srv writes send)) = true) /\
  (forall e,
      returned (shutdownPlayer srv writes send) = Some e ->
      exists k, (k <= retries findPlayerTimeout)%nat /\
        slotOnReturn (shutdownPlayer srv writes send) = slotAt writes k srv) /\
  (returned (shutdownPlayer srv writes send) = None ->
   exists k, (k <= retries findPlayerTimeout)%nat /\
     send {| emitter.Port := Port (player (slotAt writes k srv)) |} 0 = None /\
     slotOnReturn (shutdownPlayer srv writes send)
     = unsetPlayer (slotAt writes k srv)).
Proof.
  split; [|split].
  - intros e Hb He.
    rewrite (shutdownPlayer_meets srv writes send 0); cbn [slotAt]; auto;
      try lia.
    rewrite He. split; [reflexivity | exact Hb].
  - intros e.
    destruct (window_cases writes srv (retries findPlayerTimeout))
      as [(k0 & Hle & Hb & Hn) | Hn].
    + rewrite (shutdownPlayer_meets srv writes send k0 Hle Hb Hn).
      destruct (send _ 0); cbn; [|discriminate].
      intros _. exists k0. auto.
    + rewrite shutdownPlayer_gives_up by assumption. cbn. intros _.
      exists (retries findPlayerTimeout). auto.
  - destruct (window_cases writes srv (retries findPlayerTimeout))
      as [(k0 & Hle & Hb & Hn) | Hn].
    + rewrite (shutdownPlayer_meets srv writes send k0 Hle Hb Hn).
      destruct (send _ 0) eqn:Es; cbn; [discriminate|].
      intros _. exists k0. auto.
    + rewrite shutdownPlayer_gives_up by assumption. cbn. discriminate.
Qed.

(** ** One iteration of the loop *)

Lemma awaitLoop_invariant {St : Type} (P : St -> Prop)
    (test : nat -> St -> St * option error) :
  (forall k s, P s -> P (fst (test k s))) ->
  forall left k s, P s -> P (fst (awaitLoop test k left s)).
Proof.
  intros Hstep. induction left as [|left IH]; intros k s Hs; cbn [awaitLoop];
    specialize (Hstep k s Hs); destruct (test k s) as [s' [e|]]; cbn in *;
    auto.
Qed.

(** The discovery wait calls nothing but [FindAvailablePlayer]. *)
Lemma findAvailablePlayer_trace (f : Event -> bool) (w : World) :
  f Call_FindAvailablePlayer = false ->
  existsb f (snd (findAvailablePlayer w)) = false.
Proof.
  intros Hf. unfold findAvailablePlayer, Await.
  pose proof (awaitLoop_invariant
                (fun c : PlayerState * list Event => existsb f (snd c) = false)
                (findAvailablePlayer_test w)) as Hinv.
  specialize (Hinv ltac:(
    intros k [p tr] Hc; unfold findAvailablePlayer_test;
    destruct (FindAvailablePlayer w k) as [a [e|]]; cbn in *;
    rewrite existsb_app, Hc; cbn; rewrite Hf; reflexivity)).
  specialize (Hinv (retries findPlayerTimeout) 0%nat (zeroPlayerState, [])
                   eq_refl).
  destruct (awaitLoop _ _ _ _) as [[p tr] [e|]]; exact Hinv.
Qed.

(** The wait for a ping calls nothing but [EmitPingMessage]. *)
Lemma awaitPing_trace (f : Event -> bool) (w : World) em :
  (forall port, f (Call_EmitPingMessage port) = false) ->
  existsb f (fst (awaitPing w em)) = false.
Proof.
  intros Hf. unfold awaitPing, Await.
  apply (awaitLoop_invariant (fun tr : list Event => existsb f tr = false)).
  - intros k tr Htr. cbn. rewrite existsb_app, Htr. cbn. rewrite Hf.
    reflexivity.
  - reflexivity.
Qed.

Lemma fillStep_closed w now lastFilled :
  (Sub now lastFilled >? playerPoolFillInterval) = false ->
  fillStep w now lastFilled = (lastFilled, []).
Proof. intros H. unfold fillStep. rewrite H. reflexivity. Qed.

Lemma fillStep_open w now lastFilled :
  (Sub now lastFilled >? playerPoolFillInterval) = true ->
  fst (fillStep w now lastFilled) = now /\
  In Call_FillPlayerPool (snd (fillStep w now lastFilled)).
Proof. intros H. unfold fillStep. rewrite H. cbn. auto. Qed.

Lemma fillStep_trace (f : Event -> bool) w now lastFilled :
  (forall lvl err who msg, f (Log lvl err who msg) = false) ->
  existsb f (snd (fillStep w now lastFilled))
  = (Sub now lastFilled >? playerPoolFillInterval) && f Call_FillPlayerPool.
Proof.
  intros Hlog. unfold fillStep.
  destruct (Sub now lastFilled >? playerPoolFillInterval); cbn; [|reflexivity].
  destruct (FillPlayerPool w); cbn; rewrite Hlog, !orb_false_r; reflexivity.
Qed.

Lemma refreshStep_trace (f : Event -> bool) w srv :
  (forall id, f (Call_FindPlayerByID id) = false) ->
  (forall err who msg,
      f (Log WarnLevel err who msg) = true ->
      msg = "Player process unreachable.") ->
  existsb f (snd (refreshStep w srv)) = false.
Proof.
  intros Hcall Hlog. unfold refreshStep.
  destruct (hasPlayer srv); [|reflexivity].
  destruct (FindPlayerByID w (ID (player srv))) as [u [e|]]; cbn.
  - destruct (HasPrefix e "player not found"); cbn; rewrite Hcall; cbn;
      rewrite orb_false_r;
      match goal with
      | |- f ?ev = false =>
          destruct (f ev) eqn:E; [apply Hlog in E; discriminate | reflexivity]
      end.
  - rewrite Hcall. reflexivity.
Qed.

Lemma acquireStep_trace (f : Event -> bool) w srv :
  f Call_FindAvailablePlayer = false ->
  (forall lvl err who msg,
      f (Log lvl err who msg) = true ->
      lvl = WarnLevel /\ msg = "Player process unreachable.") ->
  existsb f (snd (acquireStep w srv)) = false.
Proof.
  intros Hcall Hlog. unfold acquireStep.
  destruct (negb (hasPlayer srv)); [|reflexivity].
  pose proof (findAvailablePlayer_trace f w Hcall) as Htr.
  destruct (findAvailablePlayer w) as [[p [e|]] tr]; cbn in *;
    rewrite existsb_app, Htr; cbn; rewrite orb_false_r;
    match goal with
    | |- f ?ev = false =>
        destruct (f ev) eqn:E;
        [apply Hlog in E; destruct E; discriminate | reflexivity]
    end.
Qed.

Lemma pingStep_skipped w now srv last :
  hasPlayer srv && (Sub now last >? pingInterval) = false ->
  pingStep w now srv last = (srv, last, []).
Proof. intros H. unfold pingStep. rewrite H. reflexivity. Qed.

Lemma pingStep_failed w now srv last e :
  hasPlayer srv = true ->
  (Sub now last >? pingInterval) = true ->
  snd (awaitPing w {| emitter.Port := Port (player srv) |}) = Some e ->
  pingStep w now srv last
  = (unsetPlayer srv, now,
     fst (awaitPing w {| emitter.Port := Port (player srv) |})
     ++ [Log WarnLevel (Some e) (Some (player srv))
             "Player process unreachable."]).
Proof.
  intros Hb Hg He. unfold pingStep. rewrite Hb, Hg, (emitter_bound _ Hb).
  cbn [andb]. destruct (awaitPing w _) as [tr r]. cbn in He. subst r.
  reflexivity.
Qed.

Lemma pingStep_passed w now srv last :
  hasPlayer srv = true ->
  (Sub now last >? pingInterval) = true ->
  snd (awaitPing w {| emitter.Port := Port (player srv) |}) = None ->
  pingStep w now srv last
  = (srv, now,
     fst (awaitPing w {| emitter.Port := Port (player srv) |})
     ++ [Log DebugLevel None (Some (player srv))
             "Sent ping to player process."]).
Proof.
  intros Hb Hg He. unfold pingStep. rewrite Hb, Hg, (emitter_bound _ Hb).
  cbn [andb]. destruct (awaitPing w _) as [tr r]. cbn in He. subst r.
  reflexivity.
Qed.

(** An iteration, step by step. *)
Lemma tick_steps w l :
  tick w l
  = ({| server :=
          fst (fst (pingStep w (Now w) (afterAcquire w l) (lastPing l)));
        playerPoolLastFilled :=
          fst (fillStep w (Now w) (playerPoolLastFilled l));
        lastPing :=
          snd (fst (pingStep w (Now w) (afterAcquire w l) (lastPing l))) |},
     snd (fillStep w (Now w) (playerPoolLastFilled l))
     ++ snd (refreshStep w (server l))
     ++ snd (acquireStep w (afterRefresh w l))
     ++ snd (pingStep w (Now w) (afterAcquire w l) (lastPing l))).
Proof.
  unfold tick, afterAcquire, afterRefresh.
  destruct (fillStep w (Now w) (playerPoolLastFilled l)) as [filled tr1].
  destruct (refreshStep w (server l)) as [srv2 tr2]. cbn [fst snd].
  destruct (acquireStep w srv2) as [srv3 tr3]. cbn [fst snd].
  destruct (pingStep w (Now w) srv3 (lastPing l)) as [[srv4 pinged] tr4].
  reflexivity.
Qed.

Lemma pingStep_trace (f : Event -> bool) w now srv last :
  (forall port, f (Call_EmitPingMessage port) = false) ->
  (forall lvl err who msg, f (Log lvl err who msg) = false) ->
  existsb f (snd (pingStep w now srv last)) = false.
Proof.
  intros Hcall Hlog. unfold pingStep.
  destruct (hasPlayer srv && (Sub now last >? pingInterval)); [|reflexivity].
  destruct (emitter srv) as [em r].
  pose proof (awaitPing_trace f w em Hcall) as Htr.
  destruct (awaitPing w em) as [tr [e|]]; cbn in *;
    rewrite existsb_app, Htr; cbn; rewrite Hlog; reflexivity.
Qed.

Lemma no_failure_logged (tr : list Event) :
  existsb isPingFailure tr = false -> failedPings tr = 0%nat.
Proof.
  unfold failedPings. induction tr as [|ev tr IH]; cbn; [reflexivity|].
  destruct (isPingFailure ev); cbn; [discriminate | exact IH].
Qed.

Lemma failedPings_app (tr1 tr2 : list Event) :
  failedPings (tr1 ++ tr2) = (failedPings tr1 + failedPings tr2)%nat.
Proof. unfold failedPings. rewrite filter_app, length_app. reflexivity. Qed.

Lemma isPingFailure_log lvl err who msg :
  isPingFailure (Log lvl err who msg) = true ->
  lvl = WarnLevel /\ msg = "Player process unreachable.".
Proof.
  destruct lvl; cbn; try discriminate. intros H.
  apply String.eqb_eq in H. auto.
Qed.

Lemma fillStep_no_failure w now lastFilled :
  failedPings (snd (fillStep w now lastFilled)) = 0%nat.
Proof.
  unfold fillStep.
  destruct (Sub now lastFilled >? playerPoolFillInterval); [|reflexivity].
  destruct (FillPlayerPool w); reflexivity.
Qed.

(** C1. In an iteration whose health check runs (a worker is bound when it
    starts and more than the ping interval has passed since the last ping),
    a wait for the ping that ends in an error leaves the slot cleared at the
    end of the iteration; this holds from every state of the loop, so on the
    first failure: the iteration logs one failed ping, fewer than
    [failedPingThreshold]. *)
Theorem ping_failure_evicts_at_once (w : World) (l : Loop) (e : error) :
  hasPlayer (afterAcquire w l) = true ->
  (Sub (Now w) (lastPing l) >? pingInterval) = true ->
  snd (awaitPing w {| emitter.Port := Port (player (afterAcquire w l)) |})
  = Some e ->
  player (server (fst (tick w l))) = zeroPlayerState /\
  hasPlayer (server (fst (tick w l))) = false /\
  failedPings (snd (tick w l)) = 1%nat /\
  (failedPings (snd (tick w l)) < failedPingThreshold)%nat.
Proof.
  intros Hb Hg He.
  assert (Hcount : failedPings (snd (tick w l)) = 1%nat).
  { rewrite tick_steps. cbn [snd]. rewrite !failedPings_app.
    rewrite fillStep_no_failure.
    rewrite (no_failure_logged (snd (refreshStep w (server l)))).
    2:{ apply refreshStep_trace; [reflexivity|].
        intros err who msg H. apply isPingFailure_log in H. tauto. }
    rewrite (no_failure_logged (snd (acquireStep w (afterRefresh w l)))).
    2:{ apply acquireStep_trace; [reflexivity|].
        intros lvl err who msg H. apply isPingFailure_log in H. exact H. }
    rewrite (pingStep_failed w (Now w) _ (lastPing l) e Hb Hg He).
    cbn [snd]. rewrite failedPings_app.
    rewrite (no_failure_logged (fst (awaitPing w _))).
    2:{ apply awaitPing_trace. reflexivity. }
    reflexivity. }
  rewrite Hcount. rewrite tick_steps. cbn [fst server].
  rewrite (pingStep_failed w (Now w) _ (lastPing l) e Hb Hg He).
  cbn [fst]. repeat split. unfold failedPingThreshold. lia.
Qed.

(** C6, as amended. With the slot empty when the acquisition step runs, be
    it because the refresh step has just cleared it, a successful
    [findAvailablePlayer] puts exactly the discovered descriptor in the
    slot, whichever descriptor the registry answered with, the one just
    evicted included; the iteration ends with that descriptor in the slot, and
    [hasPlayer] true when its port is not zero, provided the health check
    of the same iteration does not run or its ping gets through.  A failed
    [findAvailablePlayer] leaves the slot empty to the end of the
    iteration. *)
Theorem acquisition_binds_discovered (w : World) (l : Loop) :
  hasPlayer (afterRefresh w l) = false ->
  (forall found tr,
      findAvailablePlayer w = (found, None, tr) ->
      player (afterAcquire w l) = found /\
      ((hasPlayer (afterAcquire w l)
        && (Sub (Now w) (lastPing l) >? pingInterval) = false \/
        snd (awaitPing w {| emitter.Port := Port found |}) = None) ->
       player (server (fst (tick w l))) = found /\
       hasPlayer (server (fst (tick w l))) = negb (Port found =? 0))) /\
  (forall found e tr,
      findAvailablePlayer w = (found, Some e, tr) ->
      afterAcquire w l = afterRefresh w l /\
      server (fst (tick w l)) = afterRefresh w l /\
      hasPlayer (server (fst (tick w l))) = false).
Proof.
  intros Hempty. split.
  - intros found tr Hfound.
    assert (Hacq : afterAcquire w l = setPlayer (afterRefresh w l) found).
    { unfold afterAcquire, acquireStep. rewrite Hempty, Hfound. reflexivity. }
    split; [rewrite Hacq; reflexivity|].
    intros Hping. rewrite tick_steps. cbn [fst server].
    destruct (hasPlayer (afterAcquire w l)
              && (Sub (Now w) (lastPing l) >? pingInterval)) eqn:Hg.
    + destruct Hping as [Hping | Hping]; [discriminate|].
      apply andb_true_iff in Hg. destruct Hg as [Hb Hg].
      rewrite (pingStep_passed w (Now w) _ (lastPing l) Hb Hg).
      * cbn [fst]. rewrite Hacq. split; reflexivity.
      * rewrite Hacq. exact Hping.
    + rewrite (pingStep_skipped w (Now w) _ (lastPing l) Hg). cbn [fst].
      rewrite Hacq. split; reflexivity.
  - intros found e tr Hfail.
    assert (Hacq : afterAcquire w l = afterRefresh w l).
    { unfold afterAcquire, acquireStep. rewrite Hempty, Hfail. reflexivity. }
    split; [exact Hacq|]. rewrite tick_steps. cbn [fst server].
    rewrite pingStep_skipped by (rewrite Hacq, Hempty; reflexivity).
    cbn [fst]. rewrite Hacq. auto.
Qed.

(** ** The two timestamps *)

Lemma tick_calls (f : Event -> bool) w l :
  (forall id, f (Call_FindPlayerByID id) = false) ->
  f Call_FindAvailablePlayer = false ->
  (forall lvl err who msg, f (Log lvl err who msg) = false) ->
  existsb f (snd (tick w l))
  = existsb f (snd (fillStep w (Now w) (playerPoolLastFilled l)))
    || existsb f (snd (pingStep w (Now w) (afterAcquire w l) (lastPing l))).
Proof.
  intros Hid Hav Hlog. rewrite tick_steps. cbn [snd].
  rewrite !existsb_app.
  rewrite refreshStep_trace, acquireStep_trace; auto.
  - intros lvl err who msg H. rewrite Hlog in H. discriminate.
  - intros err who msg H. rewrite Hlog in H. discriminate.
Qed.

(** While the fill interval has not passed since [playerPoolLastFilled],
    the iterations leave it alone and call no pool fill. *)
Lemma ticks_without_fill (ws : list World) :
  forall l,
    (forall w, In w ws ->
       (Sub (Now w) (playerPoolLastFilled l) >? playerPoolFillInterval)
       = false) ->
    playerPoolLastFilled (fst (ticks ws l)) = playerPoolLastFilled l /\
    existsb isFillCall (snd (ticks ws l)) = false.
Proof.
  induction ws as [|w ws IH]; intros l Hall; cbn [ticks].
  - split; reflexivity.
  - assert (Hw := Hall w (or_introl eq_refl)).
    assert (Hkeep : playerPoolLastFilled (fst (tick w l))
                    = playerPoolLastFilled l).
    { rewrite tick_steps. cbn [fst playerPoolLastFilled].
      rewrite (fillStep_closed w _ _ Hw). reflexivity. }
    assert (Hquiet : existsb isFillCall (snd (tick w l)) = false).
    { rewrite tick_calls by reflexivity.
      rewrite (fillStep_closed w _ _ Hw).
      rewrite pingStep_trace by reflexivity. reflexivity. }
    destruct (tick w l) as [l1 tr1]. cbn [fst snd] in *.
    destruct (IH l1) as [IH1 IH2].
    { intros w' Hin. rewrite Hkeep. apply Hall. right. exact Hin. }
    destruct (ticks ws l1) as [l2 tr2]. cbn [fst snd] in *.
    rewrite existsb_app, Hquiet, IH2, IH1, Hkeep. split; reflexivity.
Qed.

(** While the ping interval has not passed since [lastPing], the iterations
    leave it alone and send no ping, whoever is bound. *)
Lemma ticks_without_ping (ws : list World) :
  forall l,
    (forall w, In w ws ->
       (Sub (Now w) (lastPing l) >? pingInterval) = false) ->
    lastPing (fst (ticks ws l)) = lastPing l /\
    existsb isPingCall (snd (ticks ws l)) = false.
Proof.
  induction ws as [|w ws IH]; intros l Hall; cbn [ticks].
  - split; reflexivity.
  - assert (Hw := Hall w (or_introl eq_refl)).
    assert (Hskip : pingStep w (Now w) (afterAcquire w l) (lastPing l)
                    = (afterAcquire w l, lastPing l, [])).
    { apply pingStep_skipped. rewrite Hw. apply andb_false_r. }
    assert (Hkeep : lastPing (fst (tick w l)) = lastPing l).
    { rewrite tick_steps. cbn [fst lastPing]. rewrite Hskip. reflexivity. }
    assert (Hquiet : existsb isPingCall (snd (tick w l)) = false).
    { rewrite tick_calls by reflexivity. rewrite Hskip.
      rewrite fillStep_trace by reflexivity.
      cbn [isPingCall existsb snd]. rewrite andb_false_r. reflexivity. }
    destruct (tick w l) as [l1 tr1]. cbn [fst snd] in *.
    destruct (IH l1) as [IH1 IH2].
    { intros w' Hin. rewrite Hkeep. apply Hall. right. exact Hin. }
    destruct (ticks ws l1) as [l2 tr2]. cbn [fst snd] in *.
    rewrite existsb_app, Hquiet, IH2, IH1, Hkeep. split; reflexivity.
Qed.

(** C9. Both timestamps move when the step is attempted, whatever it
    returns.  An iteration whose pool fill is due calls [FillPlayerPool] and
    sets [playerPoolLastFilled] to its start time, an error returned or
    not, and no later iteration starting within the fill interval of that
    time calls it again.  An iteration whose health check runs sets
    [lastPing] to its start time, the ping failed or not, and no later
    iteration starting within the ping interval of that time sends a ping,
    whichever worker it has acquired. *)
Theorem timestamps_advance_on_attempt (w : World) (l : Loop)
    (later : list World) :
  ((Sub (Now w) (playerPoolLastFilled l) >? playerPoolFillInterval) = true ->
   In Call_FillPlayerPool (snd (tick w l)) /\
   playerPoolLastFilled (fst (tick w l)) = Now w /\
   ((forall w', In w' later ->
       (Sub (Now w') (Now w) >? playerPoolFillInterval) = false) ->
    existsb isFillCall (snd (ticks later (fst (tick w l)))) = false /\
    playerPoolLastFilled (fst (ticks later (fst (tick w l)))) = Now w))
  /\
  (hasPlayer (afterAcquire w l) = true ->
   (Sub (Now w) (lastPing l) >? pingInterval) = true ->
   In (Call_EmitPingMessage (Port (player (afterAcquire w l))))
      (snd (tick w l)) /\
   lastPing (fst (tick w l)) = Now w /\
   ((forall w', In w' later ->
       (Sub (Now w') (Now w) >? pingInterval) = false) ->
    existsb isPingCall (snd (ticks later (fst (tick w l)))) = false /\
    lastPing (fst (ticks later (fst (tick w l)))) = Now w)).
Proof.
  split.
  - intros Hg.
    destruct (fillStep_open w (Now w) (playerPoolLastFilled l) Hg)
      as [Hnow Hcall].
    assert (Hset : playerPoolLastFilled (fst (tick w l)) = Now w).
    { rewrite tick_steps. exact Hnow. }
    split; [|split; [exact Hset|]].
    + rewrite tick_steps. cbn [snd]. apply in_or_app. left. exact Hcall.
    + intros Hlater.
      destruct (ticks_without_fill later (fst (tick w l))) as [Hk Hq].
      { intros w' Hin. rewrite Hset. apply Hlater. exact Hin. }
      rewrite Hk, Hq, Hset. split; reflexivity.
  - intros Hb Hg.
    assert (Hstep :
      snd (fst (pingStep w (Now w) (afterAcquire w l) (lastPing l))) = Now w /\
      In (Call_EmitPingMessage (Port (player (afterAcquire w l))))
         (snd (pingStep w (Now w) (afterAcquire w l) (lastPing l)))).
    { assert (Hsent :
        In (Call_EmitPingMessage (Port (player (afterAcquire w l))))
           (fst (awaitPing w
                   {| emitter.Port := Port (player (afterAcquire w l)) |}))).
      { unfold awaitPing, Await.
        destruct (retries pingTimeout); cbn [awaitLoop emitter.Port];
          destruct (EmitPingMessage w _ 0%nat); cbn; auto.
        - match goal with
          | |- In ?ev (fst (awaitLoop ?t ?k ?n ?s)) =>
              apply (awaitLoop_invariant (fun tr => In ev tr) t)
          end.
          + intros k tr Hin. cbn. apply in_or_app. left. exact Hin.
          + cbn. auto.
      }
      destruct (snd (awaitPing w
                  {| emitter.Port := Port (player (afterAcquire w l)) |}))
        as [e|] eqn:He.
      - rewrite (pingStep_failed w (Now w) _ (lastPing l) e Hb Hg He).
        cbn [fst snd]. split; [reflexivity|]. apply in_or_app. left.
        exact Hsent.
      - rewrite (pingStep_passed w (Now w) _ (lastPing l) Hb Hg He).
        cbn [fst snd]. split; [reflexivity|]. apply in_or_app. left.
        exact Hsent. }
    destruct Hstep as [Hnow Hcall].
    assert (Hset : lastPing (fst (tick w l)) = Now w).
    { rewrite tick_steps. exact Hnow. }
    split; [|split; [exact Hset|]].
    + rewrite tick_steps. cbn [snd]. apply in_or_app. right.
      apply in_or_app. right. apply in_or_app. right. exact Hcall.
    + intros Hlater.
      destruct (ticks_without_ping later (fst (tick w l))) as [Hk Hq].
      { intros w' Hin. rewrite Hset. apply Hlater. exact Hin. }
      rewrite Hk, Hq, Hset. split; reflexivity.
Qed.

(** ** Discovery *)

Lemma awaitLoop_discovers w k0 :
  snd (FindAvailablePlayer w k0) = None ->
  forall left k p tr,
    (k <= k0 <= k + left)%nat ->
    (forall j, (k <= j < k0)%nat -> snd (FindAvailablePlayer w j) <> None) ->
    awaitLoop (findAvailablePlayer_test w) k left (p, tr)
    = ((fst (FindAvailablePlayer w k0),
        tr ++ repeat Call_FindAvailablePlayer (S (k0 - k))), None).
Proof.
  intros Hk0.
  assert (Hit : forall p tr,
    findAvailablePlayer_test w k0 (p, tr)
    = ((fst (FindAvailablePlayer w k0), tr ++ [Call_FindAvailablePlayer]),
       None)).
  { intros p tr. unfold findAvailablePlayer_test.
    destruct (FindAvailablePlayer w k0) as [a err]. cbn in Hk0. subst err.
    reflexivity. }
  induction left as [|left IH]; intros k p tr Hk Hnone.
  - assert (k = k0) by lia. subst k. cbn [awaitLoop]. rewrite Hit.
    rewrite Nat.sub_diag. reflexivity.
  - cbn [awaitLoop]. destruct (Nat.eq_dec k k0) as [->|Hne].
    + rewrite Hit, Nat.sub_diag. reflexivity.
    + assert (Hk' := Hnone k ltac:(lia)).
      unfold findAvailablePlayer_test at 1.
      destruct (FindAvailablePlayer w k) as [a [e|]]; [|now elim Hk'].
      rewrite (IH (S k)); [| lia | intros j Hj; apply Hnone; lia].
      rewrite <- app_assoc.
      replace (k0 - k)%nat with (S (k0 - S k)) by lia. reflexivity.
Qed.

Lemma awaitLoop_discovers_nobody w :
  forall left k p tr,
    (forall j, (k <= j <= k + left)%nat ->
               snd (FindAvailablePlayer w j) <> None) ->
    exists e,
      snd (FindAvailablePlayer w (k + left)) = Some e /\
      awaitLoop (findAvailablePlayer_test w) k left (p, tr)
      = ((p, tr ++ repeat Call_FindAvailablePlayer (S left)),
         Some (timeoutError e)).
Proof.
  induction left as [|left IH]; intros k p tr Hnone; cbn [awaitLoop];
    assert (Hk := Hnone k ltac:(lia));
    unfold findAvailablePlayer_test at 1.
  - rewrite Nat.add_0_r.
    destruct (FindAvailablePlayer w k) as [a [e|]]; [|now elim Hk].
    exists e. split; reflexivity.
  - destruct (FindAvailablePlayer w k) as [a [e|]]; [|now elim Hk].
    destruct (IH (S k) p (tr ++ [Call_FindAvailablePlayer])) as (e' & He' & Hr).
    { intros j Hj. apply Hnone. lia. }
    exists e'. replace (k + S left)%nat with (S k + left)%nat by lia.
    split; [exact He'|]. rewrite Hr, <- app_assoc. reflexivity.
Qed.

(** X1. [findAvailablePlayer] hands back the answer of the first call of
    [FindAvailablePlayer] in the window that returns no error, after exactly
    that many calls; the answers that came with an error are dropped. *)
Theorem findAvailablePlayer_first_success (w : World) (k0 : nat) :
  (k0 <= retries findPlayerTimeout)%nat ->
  snd (FindAvailablePlayer w k0) = None ->
  (forall j, (j < k0)%nat -> snd (FindAvailablePlayer w j) <> None) ->
  findAvailablePlayer w
  = (fst (FindAvailablePlayer w k0), None,
     repeat Call_FindAvailablePlayer (S k0)).
Proof.
  intros Hle Hk0 Hnone. unfold findAvailablePlayer, Await.
  rewrite (awaitLoop_discovers w k0 Hk0); [| lia |].
  - rewrite Nat.sub_0_r. reflexivity.
  - intros j Hj. apply Hnone. lia.
Qed.

(** X2. When every call of the window returns an error, [findAvailablePlayer]
    has called [FindAvailablePlayer] once per attempt and returns the last
    error as the wait reports it, with the zero descriptor: whatever
    descriptor came along with an error is not handed on. *)
Theorem findAvailablePlayer_nobody (w : World) :
  (forall j, (j <= retries findPlayerTimeout)%nat ->
             snd (FindAvailablePlayer w j) <> None) ->
  exists e,
    snd (FindAvailablePlayer w (retries findPlayerTimeout)) = Some e /\
    findAvailablePlayer w
    = (zeroPlayerState, Some (timeoutError e),
       repeat Call_FindAvailablePlayer (S (retries findPlayerTimeout))).
Proof.
  intros Hnone. unfold findAvailablePlayer, Await.
  destruct (awaitLoop_discovers_nobody w (retries findPlayerTimeout) 0%nat
              zeroPlayerState []) as (e & He & Hr).
  { intros j Hj. apply Hnone. lia. }
  exists e. split; [exact He|]. rewrite Hr. reflexivity.
Qed.

(** ** Callers that nobody interferes with *)


(** X4. [shutdownPlayer] sends nothing, or one shutdown message with argument
    0, addressed to the port in the slot at the first attempt of the window
    that found a worker, a port that is not 0; it sends nothing exactly when
    no attempt of the window found a worker. *)
Theorem shutdownPlayer_sends_at_most_once (srv : Server)
    (writes : nat -> option PlayerState)
    (send : emitter.OSCEmitter -> Z -> option error) :
  (outside (shutdownPlayer srv writes send) = [] /\
   forall k, (k <= retries findPlayerTimeout)%nat ->
             hasPlayer (slotAt writes k srv) = false)
  \/
  (exists k0, (k0 <= retries findPlayerTimeout)%nat /\
     hasPlayer (slotAt writes k0 srv) = true /\
     (forall j, (j < k0)%nat -> hasPlayer (slotAt writes j srv) = false) /\
     Port (player (slotAt writes k0 srv)) <> 0 /\
     outside (shutdownPlayer srv writes send)
     = [Call_EmitShutdownMessage (Port (player (slotAt writes k0 srv))) 0]).
Proof.
  destruct (window_cases writes srv (retries findPlayerTimeout))
    as [(k0 & Hle & Hb & Hn) | Hn].
  - right. exists k0. split; [exact Hle|]. split; [exact Hb|].
    split; [exact Hn|]. split.
    + apply hasPlayer_true_iff. exact Hb.
    + rewrite (shutdownPlayer_meets srv writes send k0 Hle Hb Hn).
      destruct (send _ 0); reflexivity.
  - left. rewrite shutdownPlayer_gives_up by assumption. auto.
Qed.

(** X5. After a [shutdownPlayer] that returned success, a second one during
    which nobody is bound sends nothing, returns the unavailability error
    and leaves the slot empty. *)
Theorem shutdownPlayer_twice (srv : Server)
    (writes : nat -> option PlayerState)
    (send send' : emitter.OSCEmitter -> Z -> option error) :
  returned (shutdownPlayer srv writes send) = None ->
  shutdownPlayer (slotOnReturn (shutdownPlayer srv writes send))
    (fun _ => None) send'
  = ({| player := zeroPlayerState |}, [],
     Some (timeoutError "no player process is available")).
Proof.
  intros Hok.
  assert (Hs : slotOnReturn (shutdownPlayer srv writes send)
               = {| player := zeroPlayerState |}).
  { revert Hok. unfold shutdownPlayer.
    destruct (withEmitter srv writes _ []) as [[srv' tr] [e|]]; cbn;
      [discriminate | reflexivity]. }
  rewrite Hs, shutdownPlayer_gives_up.
  - rewrite slotAt_no_writes. reflexivity.
  - intros j _. rewrite slotAt_no_writes. reflexivity.
Qed.

(** ** What an iteration calls *)

Lemma filter_none {A : Type} (f : A -> bool) (xs : list A) :
  existsb f xs = false -> filter f xs = [].
Proof.
  induction xs as [|x xs IH]; cbn; [reflexivity|].
  destruct (f x); cbn; [discriminate | exact IH].
Qed.

(** What the first attempt of a wait establishes, and every later attempt
    keeps, holds when the wait ends. *)
Lemma awaitLoop_first {St : Type} (P : St -> Prop)
    (test : nat -> St -> St * option error) left s :
  P (fst (test 0%nat s)) ->
  (forall k s', P s' -> P (fst (test k s'))) ->
  P (fst (awaitLoop test 0 left s)).
Proof.
  intros H0 Hstep. destruct left as [|left]; cbn [awaitLoop];
    destruct (test 0%nat s) as [s' [e|]]; cbn in *; auto.
  apply awaitLoop_invariant; assumption.
Qed.

Lemma awaitPing_sends w em :
  In (Call_EmitPingMessage (emitter.Port em)) (fst (awaitPing w em)).
Proof.
  unfold awaitPing, Await.
  apply (awaitLoop_first
           (fun tr => In (Call_EmitPingMessage (emitter.Port em)) tr)).
  - cbn. auto.
  - intros k tr Hin. cbn. apply in_or_app. left. exact Hin.
Qed.

Lemma awaitPing_trace_port (f : Event -> bool) w em :
  f (Call_EmitPingMessage (emitter.Port em)) = false ->
  existsb f (fst (awaitPing w em)) = false.
Proof.
  intros Hf. unfold awaitPing, Await.
  apply (awaitLoop_invariant (fun tr : list Event => existsb f tr = false)).
  - intros k tr Htr. cbn. rewrite existsb_app, Htr. cbn. rewrite Hf.
    reflexivity.
  - reflexivity.
Qed.

Lemma findAvailablePlayer_calls w :
  In Call_FindAvailablePlayer (snd (findAvailablePlayer w)).
Proof.
  unfold findAvailablePlayer, Await.
  assert (H : In Call_FindAvailablePlayer
                (snd (fst (awaitLoop (findAvailablePlayer_test w) 0
                             (retries findPlayerTimeout)
                             (zeroPlayerState, []))))).
  { apply (awaitLoop_first
             (fun c : PlayerState * list Event =>
                In Call_FindAvailablePlayer (snd c))).
    - unfold findAvailablePlayer_test.
      destruct (FindAvailablePlayer w 0%nat) as [a [e|]]; cbn; auto.
    - intros k [p tr] Hin. unfold findAvailablePlayer_test.
      destruct (FindAvailablePlayer w k) as [a [e|]]; cbn in *;
        apply in_or_app; left; exact Hin. }
  destruct (awaitLoop _ _ _ _) as [[p tr] [e|]]; exact H.
Qed.

Lemma refreshStep_skipped w srv :
  hasPlayer srv = false -> refreshStep w srv = (srv, []).
Proof. intros H. unfold refreshStep. rewrite H. reflexivity. Qed.

Lemma acquireStep_skipped w srv :
  hasPlayer srv = true -> acquireStep w srv = (srv, []).
Proof. intros H. unfold acquireStep. rewrite H. reflexivity. Qed.

Lemma acquireStep_runs w srv :
  hasPlayer srv = false ->
  In Call_FindAvailablePlayer (snd (acquireStep w srv)) /\
  fst (acquireStep w srv)
  = match snd (fst (findAvailablePlayer w)) with
    | Some _ => srv
    | None => setPlayer srv (fst (fst (findAvailablePlayer w)))
    end.
Proof.
  intros H. unfold acquireStep. rewrite H. cbn [negb].
  pose proof (findAvailablePlayer_calls w) as Hc.
  destruct (findAvailablePlayer w) as [[p [e|]] tr]; cbn in *;
    (split; [apply in_or_app; left; exact Hc | reflexivity]).
Qed.

(** The slot after the health check is the slot before it, or cleared. *)
Lemma pingStep_server w now srv last :
  fst (fst (pingStep w now srv last)) = srv \/
  fst (fst (pingStep w now srv last)) = unsetPlayer srv.
Proof.
  unfold pingStep.
  destruct (hasPlayer srv && (Sub now last >? pingInterval)); [|auto].
  destruct (emitter srv) as [em r].
  destruct (awaitPing w em) as [tr [e|]]; cbn; auto.
Qed.

Lemma pingStep_when_fine w now srv last :
  (Sub now last >? pingInterval) = false \/
  snd (awaitPing w {| emitter.Port := Port (player srv) |}) = None ->
  fst (fst (pingStep w now srv last)) = srv.
Proof.
  intros Hfine.
  destruct (hasPlayer srv && (Sub now last >? pingInterval)) eqn:Hg.
  - apply andb_true_iff in Hg. destruct Hg as [Hb Hg].
    destruct Hfine as [Hf|Hf]; [congruence|].
    rewrite (pingStep_passed w now srv last Hb Hg Hf). reflexivity.
  - rewrite (pingStep_skipped w now srv last Hg). reflexivity.
Qed.

Lemma tick_findByID_calls w l :
  filter isFindByIDCall (snd (tick w l))
  = if hasPlayer (server l)
    then [Call_FindPlayerByID (ID (player (server l)))]
    else [].
Proof.
  rewrite tick_steps. cbn [snd]. rewrite !filter_app.
  rewrite (filter_none isFindByIDCall (snd (fillStep _ _ _))).
  2:{ rewrite fillStep_trace by reflexivity. apply andb_false_r. }
  rewrite (filter_none isFindByIDCall (snd (acquireStep _ _))).
  2:{ apply acquireStep_trace; [reflexivity|]. cbn. discriminate. }
  rewrite (filter_none isFindByIDCall (snd (pingStep _ _ _ _))).
  2:{ apply pingStep_trace; reflexivity. }
  rewrite !app_nil_r. cbn [app]. unfold refreshStep.
  destruct (hasPlayer (server l)); [|reflexivity].
  destruct (FindPlayerByID w (ID (player (server l)))) as [u [e|]];
    [destruct (HasPrefix e "player not found")|]; reflexivity.
Qed.

Lemma tick_discovery_calls w l :
  existsb isDiscoveryCall (snd (tick w l))
  = negb (hasPlayer (afterRefresh w l)).
Proof.
  rewrite tick_steps. cbn [snd]. rewrite !existsb_app.
  rewrite fillStep_trace by reflexivity.
  rewrite andb_false_r. cbn [orb].
  rewrite refreshStep_trace; [| reflexivity | cbn; discriminate].
  rewrite pingStep_trace by reflexivity. rewrite orb_false_r. cbn [orb].
  destruct (hasPlayer (afterRefresh w l)) eqn:Hb.
  - rewrite (acquireStep_skipped w _ Hb). reflexivity.
  - destruct (acquireStep_runs w _ Hb) as [Hin _]. cbn [negb].
    apply existsb_exists. exists Call_FindAvailablePlayer. auto.
Qed.

(** X6. An iteration asks the registry about the bound worker once, by the id
    in the slot when the iteration starts, and not at all when the slot is
    empty; it runs discovery exactly when the slot is empty after the refresh
    step, which includes a refresh that answered with port 0. *)
Theorem tick_registry_calls (w : World) (l : Loop) :
  filter isFindByIDCall (snd (tick w l))
  = (if hasPlayer (server l)
     then [Call_FindPlayerByID (ID (player (server l)))]
     else []) /\
  existsb isDiscoveryCall (snd (tick w l))
  = negb (hasPlayer (afterRefresh w l)).
Proof. split; [apply tick_findByID_calls | apply tick_discovery_calls]. Qed.

(** X7. An iteration calls [FillPlayerPool] once when the fill is due and not
    at all otherwise, and [playerPoolLastFilled] moves exactly then. *)
Theorem tick_fills_exactly_when_due (w : World) (l : Loop) :
  length (filter isFillCall (snd (tick w l)))
  = (if Sub (Now w) (playerPoolLastFilled l) >? playerPoolFillInterval
     then 1 else 0)%nat /\
  playerPoolLastFilled (fst (tick w l))
  = (if Sub (Now w) (playerPoolLastFilled l) >? playerPoolFillInterval
     then Now w else playerPoolLastFilled l).
Proof.
  rewrite tick_steps. cbn [fst snd playerPoolLastFilled].
  rewrite !filter_app.
  rewrite (filter_none isFillCall (snd (refreshStep _ _))).
  2:{ apply refreshStep_trace; [reflexivity|]. cbn. discriminate. }
  rewrite (filter_none isFillCall (snd (acquireStep _ _))).
  2:{ apply acquireStep_trace; [reflexivity|]. cbn. discriminate. }
  rewrite (filter_none isFillCall (snd (pingStep _ _ _ _))).
  2:{ apply pingStep_trace; reflexivity. }
  rewrite !app_nil_r. unfold fillStep.
  destruct (Sub (Now w) (playerPoolLastFilled l) >? playerPoolFillInterval);
    [|split; reflexivity].
  destruct (FillPlayerPool w); split; reflexivity.
Qed.

(** X8. An iteration sends a ping exactly when a worker is bound after the
    acquisition step and the ping is due, and [lastPing] moves exactly
    then. *)
Theorem tick_pings_exactly_when_guarded (w : World) (l : Loop) :
  existsb isPingCall (snd (tick w l))
  = hasPlayer (afterAcquire w l)
    && (Sub (Now w) (lastPing l) >? pingInterval) /\
  lastPing (fst (tick w l))
  = (if hasPlayer (afterAcquire w l)
        && (Sub (Now w) (lastPing l) >? pingInterval)
     then Now w else lastPing l).
Proof.
  rewrite tick_calls by reflexivity. rewrite tick_steps. cbn [fst lastPing].
  rewrite fillStep_trace by reflexivity. rewrite andb_false_r. cbn [orb].
  destruct (hasPlayer (afterAcquire w l)
            && (Sub (Now w) (lastPing l) >? pingInterval)) eqn:Hg.
  - apply andb_true_iff in Hg. destruct Hg as [Hb Hg].
    pose proof (awaitPing_sends w
      {| emitter.Port := Port (player (afterAcquire w l)) |}) as Hsent.
    assert (Hex : forall tr', existsb isPingCall
      (fst (awaitPing w {| emitter.Port := Port (player (afterAcquire w l)) |})
       ++ tr') = true).
    { intros tr'. apply existsb_exists. eexists. split;
        [apply in_or_app; left; exact Hsent | reflexivity]. }
    destruct (snd (awaitPing w
                {| emitter.Port := Port (player (afterAcquire w l)) |}))
      as [e|] eqn:He.
    + rewrite (pingStep_failed w (Now w) _ (lastPing l) e Hb Hg He).
      cbn [fst snd]. rewrite Hex. split; reflexivity.
    + rewrite (pingStep_passed w (Now w) _ (lastPing l) Hb Hg He).
      cbn [fst snd]. rewrite Hex. split; reflexivity.
  - rewrite (pingStep_skipped w (Now w) _ (lastPing l) Hg).
    split; reflexivity.
Qed.

(** ** What the loop never does, and what it keeps *)

Lemma pingStep_never_port_zero w now srv last :
  existsb isPingToPortZero (snd (pingStep w now srv last)) = false.
Proof.
  unfold pingStep.
  destruct (hasPlayer srv && (Sub now last >? pingInterval)) eqn:Hg;
    [|reflexivity].
  apply andb_true_iff in Hg. destruct Hg as [Hb _].
  rewrite (emitter_bound _ Hb).
  assert (Htr := awaitPing_trace_port isPingToPortZero w
                   {| emitter.Port := Port (player srv) |}).
  cbn [isPingToPortZero emitter.Port] in Htr.
  apply hasPlayer_true_iff in Hb. apply Z.eqb_neq in Hb.
  specialize (Htr Hb).
  destruct (awaitPing w _) as [tr [e|]]; cbn in *;
    rewrite existsb_app, Htr; reflexivity.
Qed.

Lemma tick_never_pings_port_zero w l :
  existsb isPingToPortZero (snd (tick w l)) = false.
Proof.
  rewrite tick_calls by reflexivity.
  rewrite fillStep_trace by reflexivity.
  rewrite pingStep_never_port_zero. rewrite andb_false_r. reflexivity.
Qed.

(** X9. However long the loop runs and whatever the registry answers, it never
    sends a ping to port 0. *)
Theorem ticks_never_ping_port_zero (ws : list World) (l : Loop) :
  Forall (fun ev => ev <> Call_EmitPingMessage 0) (snd (ticks ws l)).
Proof.
  assert (H : existsb isPingToPortZero (snd (ticks ws l)) = false).
  { revert l. induction ws as [|w ws IH]; intros l; cbn [ticks];
      [reflexivity|].
    pose proof (tick_never_pings_port_zero w l) as Ht.
    destruct (tick w l) as [l1 tr1]. specialize (IH l1).
    destruct (ticks ws l1) as [l2 tr2]. cbn [snd] in *.
    rewrite existsb_app, Ht, IH. reflexivity. }
  apply Forall_forall. intros ev Hin ->.
  assert (existsb isPingToPortZero (snd (ticks ws l)) = true) as Hc
    by (apply existsb_exists; eexists; split; [exact Hin | reflexivity]).
  congruence.
Qed.

(** X10. An empty slot becomes a bound one within an iteration only through a
    successful discovery: the slot then holds what [findAvailablePlayer]
    returned. *)
Theorem bound_only_by_discovery (w : World) (l : Loop) :
  hasPlayer (server l) = false ->
  hasPlayer (server (fst (tick w l))) = true ->
  snd (fst (findAvailablePlayer w)) = None /\
  player (server (fst (tick w l))) = fst (fst (findAvailablePlayer w)).
Proof.
  intros Hempty. rewrite tick_steps. cbn [fst server].
  assert (Hr : afterRefresh w l = server l).
  { unfold afterRefresh. rewrite (refreshStep_skipped w _ Hempty).
    reflexivity. }
  assert (Ha := proj2 (acquireStep_runs w (afterRefresh w l)
                         ltac:(rewrite Hr; exact Hempty))).
  fold (afterAcquire w l) in Ha.
  destruct (pingStep_server w (Now w) (afterAcquire w l) (lastPing l))
    as [-> | ->]; [|cbn; discriminate].
  rewrite Ha. destruct (snd (fst (findAvailablePlayer w))) as [e|].
  - rewrite Hr, Hempty. discriminate.
  - intros _. split; reflexivity.
Qed.

Lemma HasPrefix_iff (prefix e : string) :
  HasPrefix e prefix = true <-> exists s, e = (prefix ++ s)%string.
Proof.
  unfold HasPrefix. revert e.
  induction prefix as [|a p IH]; intros e.
  - split; [intros _; exists e; reflexivity | destruct e; reflexivity].
  - destruct e as [|b e']; simpl.
    + split; [discriminate | intros [s Hs]; discriminate].
    + destruct (Ascii.ascii_dec a b) as [->|Hne].
      * rewrite IH. split; intros [s Hs]; exists s; congruence.
      * split; [discriminate | intros [s Hs]; congruence].
Qed.

(** X11. A failed refresh of the bound worker clears the slot exactly when the
    error text is "player not found" followed by anything, letter case
    included; every other text leaves the slot as it was. *)
Theorem refresh_clears_on_prefix_only (w : World) (srv : Server)
    (updated : PlayerState) (e : error) :
  hasPlayer srv = true ->
  FindPlayerByID w (ID (player srv)) = (updated, Some e) ->
  ((exists s, e = ("player not found" ++ s)%string) ->
   fst (refreshStep w srv) = unsetPlayer srv) /\
  ((forall s, e <> ("player not found" ++ s)%string) ->
   fst (refreshStep w srv) = srv).
Proof.
  intros Hb Hq. unfold refreshStep. rewrite Hb, Hq.
  destruct (HasPrefix e "player not found") eqn:Hp; cbn [fst].
  - split; [reflexivity|]. intros Hno.
    apply HasPrefix_iff in Hp. destruct Hp as [s Hs]. now elim (Hno s).
  - split; [|reflexivity]. intros Hyes.
    apply HasPrefix_iff in Hyes. congruence.
Qed.

(** X12. A bound worker whose ping is not due, or gets through, survives the
    iteration without any discovery: it is replaced by its refreshed
    descriptor when the refresh succeeds with a port that is not 0, and the
    server is left exactly as it was when the refresh fails with an error
    that is not "player not found". *)
Theorem bound_worker_survives_tick (w : World) (l : Loop) :
  hasPlayer (server l) = true ->
  (forall updated,
      FindPlayerByID w (ID (player (server l))) = (updated, None) ->
      Port updated <> 0 ->
      (Sub (Now w) (lastPing l) >? pingInterval) = false \/
      snd (awaitPing w {| emitter.Port := Port updated |}) = None ->
      player (server (fst (tick w l))) = updated /\
      existsb isDiscoveryCall (snd (tick w l)) = false) /\
  (forall updated e,
      FindPlayerByID w (ID (player (server l))) = (updated, Some e) ->
      HasPrefix e "player not found" = false ->
      (Sub (Now w) (lastPing l) >? pingInterval) = false \/
      snd (awaitPing w {| emitter.Port := Port (player (server l)) |}) = None ->
      server (fst (tick w l)) = server l /\
      existsb isDiscoveryCall (snd (tick w l)) = false).
Proof.
  intros Hb.
  assert (Hgen : forall srv2,
    afterRefresh w l = srv2 -> hasPlayer srv2 = true ->
    (Sub (Now w) (lastPing l) >? pingInterval) = false \/
    snd (awaitPing w {| emitter.Port := Port (player srv2) |}) = None ->
    server (fst (tick w l)) = srv2 /\
    existsb isDiscoveryCall (snd (tick w l)) = false).
  { intros srv2 Hr Hb2 Hfine. rewrite tick_discovery_calls, Hr, Hb2.
    split; [|reflexivity]. rewrite tick_steps. cbn [fst server].
    assert (Ha : afterAcquire w l = srv2).
    { unfold afterAcquire. rewrite Hr, (acquireStep_skipped w _ Hb2).
      reflexivity. }
    rewrite Ha. apply pingStep_when_fine. exact Hfine. }
  split.
  - intros updated Hq Hport Hfine.
    destruct (Hgen (setPlayer (server l) updated)) as [Hs Hd].
    + unfold afterRefresh, refreshStep. rewrite Hb, Hq. reflexivity.
    + apply hasPlayer_true_iff. exact Hport.
    + exact Hfine.
    + rewrite Hs. auto.
  - intros updated e Hq Hp Hfine. apply Hgen; auto.
    unfold afterRefresh, refreshStep. rewrite Hb, Hq, Hp. reflexivity.
Qed.

Lemma pingStep_runs w now srv last :
  hasPlayer srv = true ->
  (Sub now last >? pingInterval) = true ->
  snd (fst (pingStep w now srv last)) = now /\
  In (Call_EmitPingMessage (Port (player srv)))
     (snd (pingStep w now srv last)).
Proof.
  intros Hb Hg.
  pose proof (awaitPing_sends w {| emitter.Port := Port (player srv) |})
    as Hsent. cbn [emitter.Port] in Hsent.
  destruct (snd (awaitPing w {| emitter.Port := Port (player srv) |}))
    as [e|] eqn:He.
  - rewrite (pingStep_failed w now srv last e Hb Hg He). cbn [fst snd].
    split; [reflexivity | apply in_or_app; left; exact Hsent].
  - rewrite (pingStep_passed w now srv last Hb Hg He). cbn [fst snd].
    split; [reflexivity | apply in_or_app; left; exact Hsent].
Qed.

Lemma Sub_since_epoch (now d : Z) :
  0 <= d < maxDuration -> d < now -> (Sub now Unix00 >? d) = true.
Proof.
  intros Hd Hlt. unfold Sub, Unix00. rewrite Z.sub_0_r.
  unfold minDuration, maxDuration in *.
  destruct (now >? 2 ^ 63 - 1) eqn:E1; [apply Z.gtb_lt; lia|].
  destruct (now <? - 2 ^ 63) eqn:E2; apply Z.gtb_lt;
    [apply Z.ltb_lt in E2; lia | lia].
Qed.

(** X13. Both timestamps start at the epoch, so the first iteration of the loop,
    when the clock reads later than the fill interval after the epoch,
    always fills the pool, and pings the worker it holds after the
    acquisition step, whatever worker the server started with. *)
Theorem first_iteration_fills_and_pings (srv : Server) (w : World) :
  playerPoolFillInterval < Now w ->
  let l0 := {| server := srv; playerPoolLastFilled := Unix00;
               lastPing := Unix00 |} in
  In Call_FillPlayerPool (snd (managePlayers srv [w])) /\
  playerPoolLastFilled (fst (managePlayers srv [w])) = Now w /\
  (hasPlayer (afterAcquire w l0) = true ->
   In (Call_EmitPingMessage (Port (player (afterAcquire w l0))))
      (snd (managePlayers srv [w])) /\
   lastPing (fst (managePlayers srv [w])) = Now w).
Proof.
  intros Hnow l0. unfold managePlayers. fold l0. cbn [ticks].
  assert (Hfill : (Sub (Now w) (playerPoolLastFilled l0)
                   >? playerPoolFillInterval) = true).
  { apply Sub_since_epoch; [|exact Hnow].
    unfold playerPoolFillInterval, Second, maxDuration. lia. }
  assert (Hping : (Sub (Now w) (lastPing l0) >? pingInterval) = true).
  { apply Sub_since_epoch;
      unfold pingInterval, playerPoolFillInterval, Second, maxDuration in *;
      lia. }
  destruct (fillStep_open w (Now w) (playerPoolLastFilled l0) Hfill)
    as [Hset Hcall].
  rewrite (tick_steps w l0). cbn [fst snd playerPoolLastFilled lastPing].
  rewrite app_nil_r. split; [|split; [exact Hset|]].
  - apply in_or_app. left. exact Hcall.
  - intros Hb.
    destruct (pingStep_runs w (Now w) (afterAcquire w l0) (lastPing l0)
                Hb Hping) as [Hlast Hsent].
    split; [|exact Hlast].
    apply in_or_app. right. apply in_or_app. right. apply in_or_app. right.
    exact Hsent.
Qed.

(** X14. After a [shutdownPlayer] that returned success, the next iteration of
    the loop does not ask the registry about the worker that was shut down;
    it runs discovery, and a successful discovery puts the discovered
    descriptor in the slot. *)
Theorem tick_after_shutdown (srv : Server)
    (writes : nat -> option PlayerState)
    (send : emitter.OSCEmitter -> Z -> option error)
    (w : World) (filled pinged : Z) :
  returned (shutdownPlayer srv writes send) = None ->
  let l := {| server := slotOnReturn (shutdownPlayer srv writes send);
              playerPoolLastFilled := filled;
              lastPing := pinged |} in
  filter isFindByIDCall (snd (tick w l)) = [] /\
  existsb isDiscoveryCall (snd (tick w l)) = true /\
  (snd (fst (findAvailablePlayer w)) = None ->
   player (afterAcquire w l) = fst (fst (findAvailablePlayer w))).
Proof.
  intros Hok l.
  assert (Hs : hasPlayer (server l) = false).
  { subst l. cbn [server]. revert Hok. unfold shutdownPlayer.
    destruct (withEmitter srv writes _ []) as [[srv' tr] [e|]]; cbn;
      [discriminate | reflexivity]. }
  assert (Hr : afterRefresh w l = server l).
  { unfold afterRefresh. rewrite (refreshStep_skipped w _ Hs). reflexivity. }
  rewrite tick_findByID_calls, tick_discovery_calls, Hr, Hs.
  repeat split. intros Hfound. unfold afterAcquire.
  rewrite (proj2 (acquireStep_runs w (afterRefresh w l)
                    ltac:(rewrite Hr; exact Hs))).
  rewrite Hfound. reflexivity.
Qed.

(** X15. An iteration never invents a descriptor: at its end the slot holds
    what it held at the start, or the zero descriptor, or the answer of the
    registry for the bound id, or what discovery returned. *)
Theorem tick_slot_provenance (w : World) (l : Loop) :
  player (server (fst (tick w l))) = player (server l) \/
  player (server (fst (tick w l))) = zeroPlayerState \/
  player (server (fst (tick w l)))
  = fst (FindPlayerByID w (ID (player (server l)))) \/
  player (server (fst (tick w l))) = fst (fst (findAvailablePlayer w)).
Proof.
  rewrite tick_steps. cbn [fst server].
  destruct (pingStep_server w (Now w) (afterAcquire w l) (lastPing l))
    as [-> | ->]; [|right; left; reflexivity].
  assert (Hr : player (afterRefresh w l) = player (server l) \/
               player (afterRefresh w l) = zeroPlayerState \/
               player (afterRefresh w l)
               = fst (FindPlayerByID w (ID (player (server l))))).
  { unfold afterRefresh, refreshStep.
    destruct (hasPlayer (server l)); [|auto].
    destruct (FindPlayerByID w (ID (player (server l)))) as [u [e|]];
      [destruct (HasPrefix e "player not found")|]; cbn; auto. }
  unfold afterAcquire.
  destruct (hasPlayer (afterRefresh w l)) eqn:Hb.
  - rewrite (acquireStep_skipped w _ Hb). cbn [fst]. tauto.
  - rewrite (proj2 (acquireStep_runs w _ Hb)).
    destruct (snd (fst (findAvailablePlayer w))); cbn; tauto.
Qed.

End PlayerManagement.

(** ** Concrete runs

    The runs below fix the pacing to [every100ms] and [lastError], give the
    descriptors no further fields, and start at [t0]. *)

Local Abbreviation t0 := (1700000000 * Second).
Local Abbreviation run_tick := (tick every100ms lastError tt).
Local Abbreviation run_ticks := (ticks every100ms lastError tt).
Local Abbreviation run_shutdown := (shutdownPlayer every100ms lastError tt).
Local Abbreviation initial srv :=
  (fst (managePlayers every100ms lastError tt srv [])).

Lemma window_of_discovery : every100ms findPlayerTimeout = 200%nat.
Proof. reflexivity. Qed.

(** The first iteration of a loop that starts with [ex_p1] bound: the
    refresh succeeds, the ping is refused, the slot ends cleared. *)
Lemma ping_failure_evicts_at_once_witness :
  let w := ex_world tt t0 None None true false in
  let l := initial (ex_bound tt) in
  (hasPlayer (afterAcquire every100ms lastError tt w l) = true /\
   (Sub (Now w) (lastPing l) >? pingInterval) = true /\
   snd (awaitPing every100ms lastError w
          {| emitter.Port :=
               Port (player (afterAcquire every100ms lastError tt w l)) |})
   = Some "connection refused") /\
  (player (server (fst (run_tick w l))) = zeroPlayerState tt /\
   hasPlayer (server (fst (run_tick w l))) = false /\
   failedPings (snd (run_tick w l)) = 1%nat /\
   (failedPings (snd (run_tick w l)) < failedPingThreshold)%nat).
Proof.
  intros w l.
  assert (H1 : hasPlayer (afterAcquire every100ms lastError tt w l) = true)
    by reflexivity.
  assert (H2 : (Sub (Now w) (lastPing l) >? pingInterval) = true)
    by reflexivity.
  assert (H3 : snd (awaitPing every100ms lastError w
                      {| emitter.Port :=
                           Port (player (afterAcquire every100ms lastError
                                           tt w l)) |})
               = Some "connection refused")
    by (vm_compute; reflexivity).
  exact (conj (conj H1 (conj H2 H3))
              (ping_failure_evicts_at_once every100ms lastError tt w l
                 "connection refused" H1 H2 H3)).
Defined.

(** The two refresh errors of the specification, on a slot holding [ex_p1]. *)
Lemma refresh_three_way_witness :
  hasPlayer (ex_bound tt) = true /\
  hasPlayer
    (fst (refreshStep tt
            (ex_world tt t0 None (Some "player not found: abc") true true)
            (ex_bound tt))) = false /\
  fst (refreshStep tt
         (ex_world tt t0 None (Some "connection refused") true true)
         (ex_bound tt)) = ex_bound tt.
Proof.
  assert (H : hasPlayer (ex_bound tt) = true) by reflexivity.
  split; [exact H|]. split.
  - exact (proj2 (proj1 (proj2
      (refresh_three_way tt
         (ex_world tt t0 None (Some "player not found: abc") true true)
         (ex_bound tt) H))
      (zeroPlayerState tt) "player not found: abc" eq_refl eq_refl)).
  - exact (proj2 (proj2
      (refresh_three_way tt
         (ex_world tt t0 None (Some "connection refused") true true)
         (ex_bound tt) H))
      (zeroPlayerState tt) "connection refused" eq_refl eq_refl).
Defined.

(** A bound worker whose shutdown message cannot be sent stays bound. *)
Lemma shutdownPlayer_keeps_player_on_send_error :
  let r := run_shutdown (ex_bound tt) (fun _ => None)
             (fun _ _ => Some "connection refused") in
  outside r = [Call_EmitShutdownMessage 27713 0] /\
  returned r = Some "connection refused" /\
  hasPlayer (slotOnReturn r) = true.
Proof. vm_compute. repeat split. Qed.

Lemma shutdownPlayer_clears_after_successful_send_witness :
  ((0 <= every100ms findPlayerTimeout)%nat /\
   hasPlayer (slotAt (fun _ => None) 0 (ex_bound tt)) = true) /\
  (returned (run_shutdown (ex_bound tt) (fun _ => None) (fun _ _ => None))
   = None /\
   hasPlayer
     (slotOnReturn
        (run_shutdown (ex_bound tt) (fun _ => None) (fun _ _ => None)))
   = false).
Proof.
  assert (H1 : (0 <= every100ms findPlayerTimeout)%nat) by apply Nat.le_0_l.
  assert (H2 : hasPlayer (slotAt (fun _ => None) 0 (ex_bound tt)) = true)
    by reflexivity.
  assert (H3 : forall j, (j < 0)%nat ->
                 hasPlayer (slotAt (fun _ => None) j (ex_bound tt)) = false)
    by (intros j Hj; lia).
  split; [exact (conj H1 H2)|].
  destruct (proj1 (proj2
    (shutdownPlayer_clears_after_successful_send every100ms lastError tt
       (ex_bound tt) (fun _ => None) (fun _ _ => None) 0%nat H1 H2 H3))
    eq_refl) as (Hr & _ & Hs).
  exact (conj Hr Hs).
Defined.

(** Shutting down with nobody bound during the whole window, and shutting
    down a bound worker that takes the message. *)
Lemma shutdownPlayer_leaves_no_player_witness :
  (returned (run_shutdown (ex_bound tt) (fun _ => None) (fun _ _ => None))
   = None /\
   hasPlayer
     (slotOnReturn
        (run_shutdown (ex_bound tt) (fun _ => None) (fun _ _ => None)))
   = false) /\
  (returned (run_shutdown (ex_empty tt) (fun _ => None) (fun _ _ => None))
   = Some "no player process is available" /\
   outside (run_shutdown (ex_empty tt) (fun _ => None) (fun _ _ => None))
   = [] /\
   hasPlayer
     (slotOnReturn
        (run_shutdown (ex_empty tt) (fun _ => None) (fun _ _ => None)))
   = false).
Proof.
  assert (H1 : returned (run_shutdown (ex_bound tt) (fun _ => None)
                           (fun _ _ => None)) = None)
    by (vm_compute; reflexivity).
  assert (H2 : forall k, (k <= every100ms findPlayerTimeout)%nat ->
                 hasPlayer (slotAt (fun _ => None) k (ex_empty tt)) = false)
    by (intros k _; rewrite slotAt_no_writes; reflexivity).
  split.
  - exact (conj H1
      (proj1 (shutdownPlayer_leaves_no_player every100ms lastError tt
                (ex_bound tt) (fun _ => None) (fun _ _ => None)) H1)).
  - exact (proj2 (shutdownPlayer_leaves_no_player every100ms lastError tt
                    (ex_empty tt) (fun _ => None) (fun _ _ => None)) H2).
Defined.

(** Nobody is bound when the call starts; [ex_p1] is bound between the
    third and the fourth attempt, and the fourth attempt gets its port. *)
Lemma withEmitter_waits_for_worker_witness :
  let writes := fun j : nat =>
    if (j =? 2)%nat then Some (ex_p1 tt) else None in
  let execute := fun (em : emitter.OSCEmitter) (ports : list Z) =>
    (emitter.Port em :: ports, @None error) in
  (hasPlayer (ex_empty tt) = false /\
   (3 <= every100ms findPlayerTimeout)%nat /\
   hasPlayer (slotAt writes 3 (ex_empty tt)) = true) /\
  (exists k0, (k0 <= every100ms findPlayerTimeout)%nat /\
     hasPlayer (slotAt writes k0 (ex_empty tt)) = true /\
     (forall j, (j < k0)%nat ->
                hasPlayer (slotAt writes j (ex_empty tt)) = false) /\
     let em :=
       {| emitter.Port := Port (player (slotAt writes k0 (ex_empty tt))) |} in
     outside (withEmitter every100ms lastError (ex_empty tt) writes execute [])
     = fst (execute em []) /\
     returned (withEmitter every100ms lastError (ex_empty tt) writes execute [])
     = snd (execute em []) /\
     slotOnReturn
       (withEmitter every100ms lastError (ex_empty tt) writes execute [])
     = slotAt writes k0 (ex_empty tt)) /\
  withEmitter every100ms lastError (ex_empty tt) writes execute []
  = (ex_bound tt, [27713], None).
Proof.
  intros writes execute.
  assert (H0 : hasPlayer (ex_empty tt) = false) by reflexivity.
  assert (H1 : (3 <= every100ms findPlayerTimeout)%nat)
    by (rewrite window_of_discovery; lia).
  assert (H2 : hasPlayer (slotAt writes 3 (ex_empty tt)) = true)
    by reflexivity.
  split; [exact (conj H0 (conj H1 H2))|]. split.
  - exact (proj1 (withEmitter_waits_for_worker every100ms lastError
                    (ex_empty tt) writes execute [])
                 (ex_intro _ 3%nat (conj H1 H2))).
  - vm_compute. reflexivity.
Defined.

(** Under the guard of the health check, with [ex_p1] bound. *)
Lemma emitter_error_iff_no_player_witness :
  hasPlayer (ex_bound tt) && (Sub t0 Unix00 >? pingInterval) = true /\
  snd (emitter (ex_bound tt)) = None /\
  emitter (ex_bound tt) = ({| emitter.Port := 27713 |}, None).
Proof.
  assert (H : hasPlayer (ex_bound tt) && (Sub t0 Unix00 >? pingInterval)
              = true) by reflexivity.
  split; [exact H|]. split.
  - exact (proj2 (proj2 (proj2 (emitter_error_iff_no_player (ex_bound tt))))
             t0 Unix00 H).
  - exact (proj1 (proj1 (proj2 (proj2
             (emitter_error_iff_no_player (ex_bound tt))))) eq_refl).
Defined.

(** [ex_p1] is bound and its send fails. *)
Lemma shutdownPlayer_send_error_keeps_player_witness :
  (hasPlayer (ex_bound tt) = true) /\
  (run_shutdown (ex_bound tt) (fun _ => None)
     (fun _ _ => Some "connection refused")
   = (ex_bound tt, [Call_EmitShutdownMessage 27713 0],
      Some "connection refused") /\
   hasPlayer
     (slotOnReturn
        (run_shutdown (ex_bound tt) (fun _ => None)
           (fun _ _ => Some "connection refused"))) = true).
Proof.
  assert (H : hasPlayer (ex_bound tt) = true) by reflexivity.
  split; [exact H|].
  exact (proj1 (shutdownPlayer_send_error_keeps_player every100ms lastError tt
                  (ex_bound tt) (fun _ => None)
                  (fun _ _ => Some "connection refused"))
               "connection refused" H eq_refl).
Defined.

(** The scenario of the specification: [ex_p1] is bound, its refresh says
    "player not found", discovery answers [ex_p2], the ping gets through. *)
Lemma acquisition_binds_discovered_witness :
  let w := ex_world tt t0 None (Some "player not found: p1") true true in
  let l := initial (ex_bound tt) in
  hasPlayer (afterRefresh tt w l) = false /\
  player (server (fst (run_tick w l))) = ex_p2 tt /\
  hasPlayer (server (fst (run_tick w l))) = true.
Proof.
  intros w l.
  assert (H : hasPlayer (afterRefresh tt w l) = false) by reflexivity.
  assert (Hf : findAvailablePlayer every100ms lastError tt w
               = (ex_p2 tt, None, [Call_FindAvailablePlayer]))
    by (vm_compute; reflexivity).
  assert (Hp : snd (awaitPing every100ms lastError w
                      {| emitter.Port := Port (ex_p2 tt) |}) = None)
    by (vm_compute; reflexivity).
  split; [exact H|].
  exact (proj2 (proj1 (acquisition_binds_discovered every100ms lastError tt
                         w l H) (ex_p2 tt) [Call_FindAvailablePlayer] Hf)
               (or_intror Hp)).
Defined.

(** Two iterations.  In the first the slot is empty, discovery answers
    [ex_p2] and the ping of the same iteration is refused: the iteration
    ends with the slot empty.  In the second [ex_p1] is bound, its refresh
    says "player not found", and discovery answers [ex_p1] again: the slot
    ends holding the descriptor that was just evicted. *)
Lemma acquired_then_evicted_in_one_tick :
  let w := ex_world tt t0 None None true false in
  let l := initial (ex_empty tt) in
  let again :=
    {| Now := t0;
       FillPlayerPool := None;
       FindPlayerByID := fun _ =>
         (zeroPlayerState tt, Some "player not found: p1");
       FindAvailablePlayer := fun _ => (ex_p1 tt, None);
       EmitPingMessage := fun _ _ => None |} in
  let bound := initial (ex_bound tt) in
  (hasPlayer (afterRefresh tt w l) = false /\
   findAvailablePlayer every100ms lastError tt w
   = (ex_p2 tt, None, [Call_FindAvailablePlayer]) /\
   player (afterAcquire every100ms lastError tt w l) = ex_p2 tt /\
   hasPlayer (server (fst (run_tick w l))) = false /\
   player (server (fst (run_tick w l))) = zeroPlayerState tt) /\
  (player (server bound) = ex_p1 tt /\
   player (afterRefresh tt again bound) = zeroPlayerState tt /\
   findAvailablePlayer every100ms lastError tt again
   = (ex_p1 tt, None, [Call_FindAvailablePlayer]) /\
   player (server (fst (run_tick again bound))) = ex_p1 tt).
Proof. vm_compute. repeat split. Qed.

(** The first iteration fills the pool and pings [ex_p1]; both fail.  The
    iterations 100 ms and 900 ms later acquire [ex_p2], and neither fills
    the pool nor pings. *)
Lemma timestamps_advance_on_attempt_witness :
  let w := ex_world tt t0 (Some "cannot start player") None true false in
  let l := initial (ex_bound tt) in
  let later :=
    [ex_world tt (t0 + 100 * Millisecond) None None true true;
     ex_world tt (t0 + 900 * Millisecond) None None true true] in
  (FillPlayerPool w = Some "cannot start player" /\
   hasPlayer (server (fst (run_tick w l))) = false /\
   player (server (fst (run_ticks later (fst (run_tick w l))))) = ex_p2 tt) /\
  (existsb isFillCall (snd (run_ticks later (fst (run_tick w l)))) = false /\
   playerPoolLastFilled (fst (run_ticks later (fst (run_tick w l)))) = t0) /\
  (existsb isPingCall (snd (run_ticks later (fst (run_tick w l)))) = false /\
   lastPing (fst (run_ticks later (fst (run_tick w l)))) = t0).
Proof.
  intros w l later.
  assert (Hfill : (Sub (Now w) (playerPoolLastFilled l)
                   >? playerPoolFillInterval) = true) by reflexivity.
  assert (Hb : hasPlayer (afterAcquire every100ms lastError tt w l) = true)
    by reflexivity.
  assert (Hping : (Sub (Now w) (lastPing l) >? pingInterval) = true)
    by reflexivity.
  assert (Hlf : forall w', In w' later ->
            (Sub (Now w') (Now w) >? playerPoolFillInterval) = false)
    by (intros w' [<-|[<-|[]]]; reflexivity).
  assert (Hlp : forall w', In w' later ->
            (Sub (Now w') (Now w) >? pingInterval) = false)
    by (intros w' [<-|[<-|[]]]; reflexivity).
  split; [|split].
  - vm_compute. repeat split.
  - exact (proj2 (proj2 (proj1
      (timestamps_advance_on_attempt every100ms lastError tt w l later)
      Hfill)) Hlf).
  - exact (proj2 (proj2 (proj2
      (timestamps_advance_on_attempt every100ms lastError tt w l later)
      Hb Hping)) Hlp).
Defined.

(** ** Concrete runs of the further properties *)

(** Discovery that answers with an error twice, a descriptor coming along,
    and then finds [ex_p2]. *)
Local Abbreviation w_slow :=
  {| Now := t0;
     FillPlayerPool := None;
     FindPlayerByID := fun _ => (zeroPlayerState tt, None);
     FindAvailablePlayer := fun k =>
       if (k <? 2)%nat then (ex_p1 tt, Some "player is starting")
       else (ex_p2 tt, None);
     EmitPingMessage := fun _ _ => None |}.

(** Discovery that always answers with an error, a descriptor coming
    along. *)
Local Abbreviation w_never :=
  {| Now := t0;
     FillPlayerPool := None;
     FindPlayerByID := fun _ => (zeroPlayerState tt, None);
     FindAvailablePlayer := fun _ => (ex_p1 tt, Some "player is starting");
     EmitPingMessage := fun _ _ => None |}.

Lemma findAvailablePlayer_first_success_witness :
  findAvailablePlayer every100ms lastError tt w_slow
  = (ex_p2 tt, None,
     [Call_FindAvailablePlayer; Call_FindAvailablePlayer;
      Call_FindAvailablePlayer]).
Proof.
  assert (H1 : (2 <= every100ms findPlayerTimeout)%nat)
    by (rewrite window_of_discovery; lia).
  assert (H2 : forall j, (j < 2)%nat ->
                 snd (FindAvailablePlayer w_slow j) <> None)
    by (intros [|[|j]] Hj; [cbn; discriminate | cbn; discriminate | lia]).
  exact (findAvailablePlayer_first_success every100ms lastError tt w_slow
           2%nat H1 eq_refl H2).
Defined.

Lemma findAvailablePlayer_nobody_witness :
  exists e,
    snd (FindAvailablePlayer w_never (every100ms findPlayerTimeout)) = Some e /\
    findAvailablePlayer every100ms lastError tt w_never
    = (zeroPlayerState tt, Some (lastError e),
       repeat Call_FindAvailablePlayer (S (every100ms findPlayerTimeout))).
Proof.
  assert (H : forall j, (j <= every100ms findPlayerTimeout)%nat ->
                snd (FindAvailablePlayer w_never j) <> None)
    by (intros j _; cbn; discriminate).
  exact (findAvailablePlayer_nobody every100ms lastError tt w_never H).
Defined.

(** [ex_p1] is shut down, then shut down again. *)
Lemma shutdownPlayer_twice_witness :
  returned (run_shutdown (ex_bound tt) (fun _ => None) (fun _ _ => None))
  = None /\
  run_shutdown
    (slotOnReturn
       (run_shutdown (ex_bound tt) (fun _ => None) (fun _ _ => None)))
    (fun _ => None) (fun _ _ => None)
  = (ex_empty tt, [], Some "no player process is available").
Proof.
  assert (H : returned (run_shutdown (ex_bound tt) (fun _ => None)
                          (fun _ _ => None)) = None)
    by (vm_compute; reflexivity).
  exact (conj H
    (shutdownPlayer_twice every100ms lastError tt (ex_bound tt)
       (fun _ => None) (fun _ _ => None) (fun _ _ => None) H)).
Defined.

(** The loop starts with an empty slot and discovery finds [ex_p2]. *)
Lemma bound_only_by_discovery_witness :
  let w := ex_world tt t0 None None true true in
  let l := initial (ex_empty tt) in
  (hasPlayer (server l) = false /\
   hasPlayer (server (fst (run_tick w l))) = true) /\
  (snd (fst (findAvailablePlayer every100ms lastError tt w)) = None /\
   player (server (fst (run_tick w l)))
   = fst (fst (findAvailablePlayer every100ms lastError tt w))).
Proof.
  intros w l.
  assert (H1 : hasPlayer (server l) = false) by reflexivity.
  assert (H2 : hasPlayer (server (fst (run_tick w l))) = true)
    by (vm_compute; reflexivity).
  exact (conj (conj H1 H2)
    (bound_only_by_discovery every100ms lastError tt w l H1 H2)).
Defined.

(** "player not found: abc" clears the slot; "Player not found: abc", with
    a capital, does not. *)
Lemma refresh_clears_on_prefix_only_witness :
  let gone := ex_world tt t0 None (Some "player not found: abc") true true in
  let odd := ex_world tt t0 None (Some "Player not found: abc") true true in
  hasPlayer (ex_bound tt) = true /\
  fst (refreshStep tt gone (ex_bound tt)) = ex_empty tt /\
  fst (refreshStep tt odd (ex_bound tt)) = ex_bound tt.
Proof.
  intros gone odd.
  assert (H : hasPlayer (ex_bound tt) = true) by reflexivity.
  assert (Hodd : forall s,
            "Player not found: abc" <> ("player not found" ++ s)%string)
    by (intros s Hs; discriminate).
  split; [exact H|]. split.
  - exact (proj1
      (refresh_clears_on_prefix_only tt gone (ex_bound tt)
         (zeroPlayerState tt) "player not found: abc" H eq_refl)
      (ex_intro _ ": abc" eq_refl)).
  - exact (proj2
      (refresh_clears_on_prefix_only tt odd (ex_bound tt)
         (zeroPlayerState tt) "Player not found: abc" H eq_refl)
      Hodd).
Defined.

(** [ex_p1] is bound, the registry is unreachable, the ping gets through:
    nothing changes and nobody is looked for. *)
Lemma bound_worker_survives_tick_witness :
  let w := ex_world tt t0 None (Some "connection refused") true true in
  let l := initial (ex_bound tt) in
  hasPlayer (server l) = true /\
  server (fst (run_tick w l)) = ex_bound tt /\
  existsb isDiscoveryCall (snd (run_tick w l)) = false.
Proof.
  intros w l.
  assert (H : hasPlayer (server l) = true) by reflexivity.
  assert (Hp : snd (awaitPing every100ms lastError w
                      {| emitter.Port := Port (player (server l)) |}) = None)
    by (vm_compute; reflexivity).
  split; [exact H|].
  exact (proj2 (bound_worker_survives_tick every100ms lastError tt w l H)
           (zeroPlayerState tt) "connection refused" eq_refl eq_refl
           (or_intror Hp)).
Defined.

(** The loop starts at [t0] with [ex_p1] bound. *)
Lemma first_iteration_fills_and_pings_witness :
  let w := ex_world tt t0 None None true true in
  playerPoolFillInterval < Now w /\
  In Call_FillPlayerPool
     (snd (managePlayers every100ms lastError tt (ex_bound tt) [w])) /\
  playerPoolLastFilled
    (fst (managePlayers every100ms lastError tt (ex_bound tt) [w])) = t0.
Proof.
  intros w.
  assert (H : playerPoolFillInterval < Now w) by reflexivity.
  split; [exact H|].
  destruct (first_iteration_fills_and_pings every100ms lastError tt
              (ex_bound tt) w H) as (Hf & Ht & _).
  exact (conj Hf Ht).
Defined.

(** [ex_p1] is shut down and the next iteration finds [ex_p2]. *)
Lemma tick_after_shutdown_witness :
  let w := ex_world tt t0 None None true true in
  let r := run_shutdown (ex_bound tt) (fun _ => None) (fun _ _ => None) in
  let l := {| server := slotOnReturn r;
              playerPoolLastFilled := t0; lastPing := t0 |} in
  returned r = None /\
  filter isFindByIDCall (snd (run_tick w l)) = [] /\
  existsb isDiscoveryCall (snd (run_tick w l)) = true /\
  player (afterAcquire every100ms lastError tt w l) = ex_p2 tt.
Proof.
  intros w r l.
  assert (H : returned r = None) by (vm_compute; reflexivity).
  destruct (tick_after_shutdown every100ms lastError tt (ex_bound tt)
              (fun _ => None) (fun _ _ => None) w t0 t0 H)
    as (H1 & H2 & H3).
  split; [exact H|]. split; [exact H1|]. split; [exact H2|].
  exact (H3 eq_refl).
Defined.
